(** * The AWS instance-identity node resolver (pkg/server/plugin/noderesolver/aws/iid.go)

    A shallow embedding of the resolver plugin: its configuration step,
    the lazily filled cache of per-region clients, the parsing of agent
    identities and the resolution of one identity (and of a batch) into
    a sorted, duplicate-free selector list.

    Go strings are byte strings ([string]); pointers to strings
    ([*string]) are [option string]; the receiver [p], the outside world
    and the trace of observable calls are threaded through a small
    state-and-error monad. *)

From Stdlib Require Import Ascii String List Sorting.Sorted.
From stdpp Require Import base option list sorting strings gmap.

Local Open Scope stdpp_scope.

(** ** Errors *)

(** Errors are kept structural: who built them, from which format string
    and which arguments. [External] stands for the errors made by the
    collaborators (hcl, idutil, the AWS SDK, the client factory);
    [Panic] for a Go run-time panic, which unwinds the call like an
    error that nobody handles. *)
Inductive error :=
| External (msg : string)
| errs_New (format : string) (args : list fmt_arg)
| iidError_New (format : string) (args : list fmt_arg)
| iidError_Wrap (err : error)
| Panic (msg : string)
with fmt_arg :=
| ArgString (s : string)
| ArgError (err : error).

Inductive result (A : Type) :=
| Ok (a : A)
| Err (e : error).
Arguments Ok {A} a.
Arguments Err {A} e.

Definition is_Ok {A} (r : result A) : bool :=
  match r with Ok _ => true | Err _ => false end.

(** ** Constants *)

Definition pluginName : string := "aws_iid".
Definition defaultRegion : string := "us-east-1".

(** ** The agent-identity path pattern

    [reAgentIDPath] is
    [^/spire/agent/aws_iid/([^/]+)/([^/]+)/([^/]+)$].  The fragment of
    the regexp language it uses is: literal text, and a capturing group
    around one-or-more characters other than a given one; the pattern is
    anchored at both ends.  The matcher is the usual backtracking one: a
    group first tries to take as many characters as it can, and gives
    characters back while the rest of the pattern fails. *)
Inductive re_item :=
| Literal (s : string)
| CaptureNotPlus (c : ascii).

Definition reAgentIDPath : list re_item :=
  [ Literal "/spire/agent/aws_iid/"; CaptureNotPlus "/";
    Literal "/"; CaptureNotPlus "/";
    Literal "/"; CaptureNotPlus "/" ].

Fixpoint strip_prefix (lit s : string) : option string :=
  match lit with
  | EmptyString => Some s
  | String a lit' =>
      match s with
      | String b s' => if Ascii.eqb a b then strip_prefix lit' s' else None
      | EmptyString => None
      end
  end.

Definition nonempty (s : string) : bool :=
  match s with EmptyString => false | String _ _ => true end.

(** [lacks c s]: the character [c] does not occur in [s]. *)
Fixpoint lacks (c : ascii) (s : string) : bool :=
  match s with
  | EmptyString => true
  | String a s' => negb (Ascii.eqb a c) && lacks c s'
  end.

(** [stops_at c t]: [t] is empty or begins with [c]. *)
Definition stops_at (c : ascii) (t : string) : Prop :=
  match t with EmptyString => True | String a _ => a = c end.

(** A path segment: one or more characters, none of them a slash. *)
Definition segment (s : string) : bool := nonempty s && lacks "/" s.

(** [plus_not c k acc s]: [acc] holds the characters the group has taken
    so far, [s] is what is left of the text, [k] matches the rest of
    the pattern. *)
Fixpoint plus_not {A} (c : ascii) (k : string → string → option A)
    (acc s : string) : option A :=
  let stop := if nonempty acc then k acc s else None in
  match s with
  | EmptyString => stop
  | String a s' =>
      if Ascii.eqb a c then stop
      else match plus_not c k (acc +:+ String a EmptyString) s' with
           | Some r => Some r
           | None => stop
           end
  end.

(** The captured groups of a match of [items] against exactly [s]. *)
Fixpoint match_items (items : list re_item) (s : string) : option (list string) :=
  match items with
  | [] => match s with EmptyString => Some [] | String _ _ => None end
  | Literal lit :: rest =>
      match strip_prefix lit s with
      | Some s' => match_items rest s'
      | None => None
      end
  | CaptureNotPlus c :: rest =>
      plus_not c (λ g s', cons g <$> match_items rest s') EmptyString s
  end.

(** [FindStringSubmatch]: [None] is Go's nil slice; on a match, element 0
    is the whole match, the captured groups follow. *)
Definition FindStringSubmatch (re : list re_item) (s : string) : option (list string) :=
  cons s <$> match_items re s.

(** ** Parsing an agent identity *)

Module url.
Record URL := { Scheme : string; Host : string; Path : string }.
End url.

Section Parse.

(** [idutil.ParseSpiffeID] and the validation mode
    [idutil.AllowAnyTrustDomainAgent()] belong to another package;
    they are taken as given. *)
Context {ValidationMode : Type}.
Variable ParseSpiffeID : string → ValidationMode → result url.URL.
Variable AllowAnyTrustDomainAgent : ValidationMode.

Definition parseAgentID (spiffeID : string) : result (string * string * string) :=
  match ParseSpiffeID spiffeID AllowAnyTrustDomainAgent with
  | Err err =>
      Err (errs_New "unable to parse agent id %q: %v" [ArgString spiffeID; ArgError err])
  | Ok u =>
      match FindStringSubmatch reAgentIDPath (url.Path u) with
      | None => Err (errs_New "malformed agent id %q" [ArgString spiffeID])
      | Some (_ :: m1 :: m2 :: m3 :: _) => Ok (m1, m2, m3)
      | Some _ => Err (Panic "index out of range")
      end
  end.

End Parse.

(** ** The data of the collaborators

    Only the fields the resolver reads or writes are kept.  A [*string]
    field is an [option string], and so is the pointer to the profile
    of an instance, which the resolver tests.  The pointers that it
    follows without a test are taken to point somewhere, as the SDK
    has them: a slice of pointers to structures is a list of
    structures, and the answer to a profile lookup holds its profile. *)

Module aws.
Record StaticCredentials :=
    { AccessKeyID : string; SecretAccessKey : string; SessionToken : string }.
Record Config :=
    { Credentials : option StaticCredentials; Region : option string }.

Definition NewConfig : Config := {| Credentials := None; Region := None |}.
Definition String_ (v : string) : option string := Some v.
Definition StringValue (v : option string) : string :=
    match v with Some s => s | None => "" end.
End aws.

Module credentials.
Definition NewStaticCredentials (id secret token : string) : aws.StaticCredentials :=
    {| aws.AccessKeyID := id; aws.SecretAccessKey := secret; aws.SessionToken := token |}.
End credentials.

Module ec2.
Record Filter := { Name : option string; Values : list (option string) }.
Record DescribeInstancesInput :=
    { InstanceIds : list (option string); Filters : list Filter }.
Record Tag := { Key : option string; Value : option string }.
Record GroupIdentifier := { GroupId : option string; GroupName : option string }.
Record IamInstanceProfile := { Arn : option string }.
Record Instance :=
    { Tags : list Tag;
      SecurityGroups : list GroupIdentifier;
      iamInstanceProfile : option IamInstanceProfile }.
Record Reservation := { Instances : list Instance }.
Record DescribeInstancesOutput := { Reservations : list Reservation }.
End ec2.

Module iam.
Record GetInstanceProfileInput := { InstanceProfileName : option string }.
Record Role := { Arn : option string }.
Record InstanceProfile := { Roles : list Role }.
Record GetInstanceProfileOutput := { instanceProfile : InstanceProfile }.
End iam.

Module common.
Record Selector := { Type_ : string; Value : string }.
Record Selectors := { Entries : list Selector }.
End common.

Module spi.
Record ConfigureRequest := { Configuration : string }.
Record ConfigureResponse := mkConfigureResponse {}.
End spi.

Module noderesolver.
Record ResolveRequest := { BaseSpiffeIdList : list string }.
Record ResolveResponse := { Map : gmap string common.Selectors }.
End noderesolver.

Record IIDResolverConfig :=
  { AccessKeyID : string; SecretAccessKey : string }.

Definition instanceFilters : list ec2.Filter :=
  [ {| ec2.Name := aws.String_ "instance-state-name";
       ec2.Values := [aws.String_ "pending"; aws.String_ "running"] |} ].

(** ** Selector values of one instance *)

Definition resolveTags (tags : list ec2.Tag) : list string :=
  map (λ tag, "tag:" +:+ aws.StringValue (ec2.Key tag) +:+ ":"
                +:+ aws.StringValue (ec2.Value tag)) tags.

Definition resolveSecurityGroups (sgs : list ec2.GroupIdentifier) : list string :=
  flat_map (λ sg, [ "sg:id:" +:+ aws.StringValue (ec2.GroupId sg);
                    "sg:name:" +:+ aws.StringValue (ec2.GroupName sg) ]) sgs.

Fixpoint resolveInstanceProfile_roles (roles : list iam.Role) : list string :=
  match roles with
  | [] => []
  | role :: roles' =>
      match iam.Arn role with
      | Some _ =>
          ("iamrole:" +:+ aws.StringValue (iam.Arn role))
            :: resolveInstanceProfile_roles roles'
      | None => resolveInstanceProfile_roles roles'
      end
  end.

Definition resolveInstanceProfile (instanceProfile : iam.InstanceProfile) : list string :=
  resolveInstanceProfile_roles (iam.Roles instanceProfile).

(** ** Deduplication and sorting

    [selectorSet] is a Go [map[string]bool] in which every stored value
    is [true]: a finite set of strings.  Go walks a map in an
    unspecified order; [elements] is one such order, and
    [sort_Strings_any_order] below shows that the order does not
    matter.  [sort.Strings] sorts in increasing byte order; a list
    has one sorted arrangement, here computed by a merge sort. *)

Definition addSelectors (selectorSet : gset string) (values : list string) : gset string :=
  foldl (λ set value, {[ value ]} ∪ set) selectorSet values.

Definition sort_Strings (values : list string) : list string :=
  merge_sort String.le values.

Definition makeSelectors (selectorSet : gset string) : common.Selectors :=
  let values := sort_Strings (elements selectorSet) in
  {| common.Entries :=
       map (λ value, {| common.Type_ := pluginName; common.Value := value |}) values |}.

(** The whole normalization step, from raw values to selectors. *)
Definition normalize (values : list string) : common.Selectors :=
  makeSelectors (addSelectors ∅ values).

(** The instances of an answer, reservation after reservation. *)
Definition all_instances (resp : ec2.DescribeInstancesOutput) : list ec2.Instance :=
  flat_map ec2.Instances (ec2.Reservations resp).

(** The lookup request that an instance with a profile ARN calls for. *)
Definition wanted_profile_request (instance : ec2.Instance)
    : option iam.GetInstanceProfileInput :=
  match ec2.iamInstanceProfile instance with
  | Some profile =>
      match ec2.Arn profile with
      | Some arn => Some {| iam.InstanceProfileName := Some arn |}
      | None => None
      end
  | None => None
  end.

(** The errors of the class [iidError] ("aws-iid"). *)
Definition is_iidError (e : error) : bool :=
  match e with
  | iidError_New _ _ | iidError_Wrap _ => true
  | _ => false
  end.

(** The values of an instance that need no lookup, in the order the
    loop adds them. *)
Definition instance_values (instance : ec2.Instance) : list string :=
  resolveTags (ec2.Tags instance) ++ resolveSecurityGroups (ec2.SecurityGroups instance).

(** ** The plugin, the world around it, and the monad of its methods *)

Section Model.

(** [W] is the state of everything outside the plugin (the cloud
    inventory, the network); [Ctx] is [context.Context], handed
    unchanged to both remote calls. *)
Context {W Ctx : Type}.
Context {ValidationMode : Type}.
Variable ParseSpiffeID : string → ValidationMode → result url.URL.
Variable AllowAnyTrustDomainAgent : ValidationMode.
Variable hcl_Decode : string → result IIDResolverConfig.

(** The [awsClient] interface: one value per implementation; a call may
    read and change the world. *)
Record awsClient := {
  DescribeInstancesWithContext :
    Ctx → ec2.DescribeInstancesInput → W → result ec2.DescribeInstancesOutput * W;
  GetInstanceProfileWithContext :
    Ctx → iam.GetInstanceProfileInput → W → result iam.GetInstanceProfileOutput * W }.

Record Hooks := {
  getenv : string → string;
  newClient : aws.Config → W → result awsClient * W }.

(** The mutex [mu] has no counterpart: calls are taken one at a time.
    A nil Go map is [None]: reading it finds nothing, writing to it
    panics. *)
Record IIDResolverPlugin := {
  conf : option aws.Config;
  clients : option (gmap string awsClient);
  hooks : Hooks }.

(** What an observer of the plugin sees happen, in order. *)
Inductive Event :=
| EvWarnf (format : string) (args : list fmt_arg)
| EvNewClient (conf : aws.Config) (r : result awsClient)
| EvDescribeInstances (client : awsClient)
    (input : ec2.DescribeInstancesInput) (r : result ec2.DescribeInstancesOutput)
| EvGetInstanceProfile (client : awsClient)
    (input : iam.GetInstanceProfileInput) (r : result iam.GetInstanceProfileOutput).

Record State := {
  plugin : IIDResolverPlugin;
  world : W;
  trace : list Event }.

Definition M (A : Type) : Type := State → result A * State.

Definition ret {A} (a : A) : M A := λ s, (Ok a, s).
Definition bind {A B} (m : M A) (f : A → M B) : M B :=
  λ s, match m s with
       | (Ok a, s') => f a s'
       | (Err e, s') => (Err e, s')
       end.

Notation "'let*' x ':=' m 'in' k" := (bind m (λ x, k))
  (at level 10, x name, m at level 200, k at level 200).

(** [for _, x := range l { b = f(b, x) }], leaving at the first error. *)
Fixpoint forRange {A B} (f : B → A → M B) (l : list A) (b : B) : M B :=
  match l with
  | [] => ret b
  | x :: l' => let* b' := f b x in forRange f l' b'
  end.

(** [if err != nil { return nil, iidError.Wrap(err) }] *)
Definition wrapErr {A} (m : M A) : M A :=
  λ s, match m s with
       | (Ok a, s') => (Ok a, s')
       | (Err e, s') => (Err (iidError_Wrap e), s')
       end.

Definition emit (ev : Event) (s : State) : State :=
  {| plugin := plugin s; world := world s; trace := trace s ++ [ev] |}.

Definition set_plugin (p : IIDResolverPlugin) (s : State) : State :=
  {| plugin := p; world := world s; trace := trace s |}.

Definition set_world (w : W) (s : State) : State :=
  {| plugin := plugin s; world := w; trace := trace s |}.

Definition Warnf (format : string) (args : list fmt_arg) : M unit :=
  λ s, (Ok tt, emit (EvWarnf format args) s).

Definition callDescribeInstances (client : awsClient) (ctx : Ctx)
    (input : ec2.DescribeInstancesInput) : M ec2.DescribeInstancesOutput :=
  λ s, let (r, w) := DescribeInstancesWithContext client ctx input (world s) in
       (r, emit (EvDescribeInstances client input r) (set_world w s)).

Definition callGetInstanceProfile (client : awsClient) (ctx : Ctx)
    (input : iam.GetInstanceProfileInput) : M iam.GetInstanceProfileOutput :=
  λ s, let (r, w) := GetInstanceProfileWithContext client ctx input (world s) in
       (r, emit (EvGetInstanceProfile client input r) (set_world w s)).

Definition callNewClient (h : Hooks) (c : aws.Config) : M awsClient :=
  λ s, let (r, w) := newClient h c (world s) in
       (r, emit (EvNewClient c r) (set_world w s)).

(** ** NewIIDResolverPlugin *)

Definition NewIIDResolverPlugin (os_Getenv : string → string)
    (newAWSClient : aws.Config → W → result awsClient * W) : IIDResolverPlugin :=
  {| conf := None; clients := None;
     hooks := {| getenv := os_Getenv; newClient := newAWSClient |} |}.

(** ** Configure *)

(** The value of a configuration field once the environment default is
    applied: the field itself unless it is empty. *)
Definition orEnv (h : Hooks) (field name : string) : string :=
  if String.eqb field "" then getenv h name else field.

Definition Configure (ctx : Ctx) (req : spi.ConfigureRequest) : M spi.ConfigureResponse :=
  λ s,
  let p := plugin s in
  match hcl_Decode (spi.Configuration req) with
  | Err err =>
      (Err (iidError_New "unable to decode configuration: %v" [ArgError err]), s)
  | Ok config =>
      let accessKeyID :=
        if String.eqb (AccessKeyID config) ""
        then getenv (hooks p) "AWS_ACCESS_KEY_ID" else AccessKeyID config in
      let secretAccessKey :=
        if String.eqb (SecretAccessKey config) ""
        then getenv (hooks p) "AWS_SECRET_ACCESS_KEY" else SecretAccessKey config in
      let install (c : aws.Config) :=
        (Ok spi.mkConfigureResponse,
         set_plugin {| conf := Some c; clients := Some ∅; hooks := hooks p |} s) in
      let c := aws.NewConfig in
      if negb (String.eqb accessKeyID "") && negb (String.eqb secretAccessKey "") then
        install
          {| aws.Credentials :=
               Some (credentials.NewStaticCredentials accessKeyID secretAccessKey "");
             aws.Region := aws.Region c |}
      else if negb (String.eqb accessKeyID "") && String.eqb secretAccessKey "" then
        (Err (iidError_New "configuration missing secret access key" []), s)
      else if String.eqb accessKeyID "" && negb (String.eqb secretAccessKey "") then
        (Err (iidError_New "configuration missing access key id" []), s)
      else if String.eqb accessKeyID "" && String.eqb secretAccessKey "" then
        (Err (iidError_New
                "configuration missing both access key id and secret access key" []), s)
      else install c
  end.

(** ** getRegionClient *)

Definition lookupClient (p : IIDResolverPlugin) (region : string) : option awsClient :=
  match clients p with
  | Some m => m !! region
  | None => None
  end.

Definition getRegionClient (region : string) : M awsClient :=
  λ s,
  match lookupClient (plugin s) region with
  | Some client => (Ok client, s)
  | None =>
      (* under the write lock: look again, then build *)
      match lookupClient (plugin s) region with
      | Some client => (Ok client, s)
      | None =>
          match conf (plugin s) with
          | None => (Err (iidError_New "not configured" []), s)
          | Some c =>
              let c' := {| aws.Credentials := aws.Credentials c;
                           aws.Region := aws.String_ region |} in
              let s1 := set_plugin {| conf := Some c';
                                      clients := clients (plugin s);
                                      hooks := hooks (plugin s) |} s in
              match callNewClient (hooks (plugin s1)) c' s1 with
              | (Err err, s2) => (Err err, s2)
              | (Ok client, s2) =>
                  match clients (plugin s2) with
                  | None => (Err (Panic "assignment to entry in nil map"), s2)
                  | Some m =>
                      (Ok client,
                       set_plugin {| conf := conf (plugin s2);
                                     clients := Some (<[region := client]> m);
                                     hooks := hooks (plugin s2) |} s2)
                  end
              end
          end
      end
  end.

(** ** resolveSpiffeID and Resolve *)

(** The body of the inner loop of [resolveSpiffeID]: the selector values
    of one instance are added to [selectorSet]. *)
Definition resolveInstance (ctx : Ctx) (client : awsClient)
    (selectorSet : gset string) (instance : ec2.Instance) : M (gset string) :=
  let selectorSet := addSelectors selectorSet (resolveTags (ec2.Tags instance)) in
  let selectorSet :=
    addSelectors selectorSet (resolveSecurityGroups (ec2.SecurityGroups instance)) in
  match ec2.iamInstanceProfile instance with
  | Some profile =>
      match ec2.Arn profile with
      | Some _ =>
          let* output :=
            wrapErr (callGetInstanceProfile client ctx
                       {| iam.InstanceProfileName := ec2.Arn profile |}) in
          ret (addSelectors selectorSet
                 (resolveInstanceProfile (iam.instanceProfile output)))
      | None => ret selectorSet
      end
  | None => ret selectorSet
  end.

Definition resolveReservation (ctx : Ctx) (client : awsClient)
    (selectorSet : gset string) (reservation : ec2.Reservation) : M (gset string) :=
  forRange (resolveInstance ctx client) (ec2.Instances reservation) selectorSet.

(** [None] is the nil [*common.Selectors]. *)
Definition resolveSpiffeID (ctx : Ctx) (spiffeID : string) : M (option common.Selectors) :=
  match parseAgentID ParseSpiffeID AllowAnyTrustDomainAgent spiffeID with
  | Err err =>
      let* _ := Warnf "unrecognized Agent ID: %s: %v"
                  [ArgString spiffeID; ArgError err] in
      ret None
  | Ok (_, region, instanceID) =>
      let* client := getRegionClient region in
      let* resp :=
        wrapErr (callDescribeInstances client ctx
                   {| ec2.InstanceIds := [aws.String_ instanceID];
                      ec2.Filters := instanceFilters |}) in
      let* selectorSet :=
        forRange (resolveReservation ctx client) (ec2.Reservations resp) ∅ in
      ret (Some (makeSelectors selectorSet))
  end.

(** The body of the loop of [Resolve]. *)
Definition resolveEntry (ctx : Ctx) (respMap : gmap string common.Selectors)
    (spiffeID : string) : M (gmap string common.Selectors) :=
  let* selectors := resolveSpiffeID ctx spiffeID in
  match selectors with
  | Some sel => ret (<[spiffeID := sel]> respMap)
  | None => ret respMap
  end.

Definition Resolve (ctx : Ctx) (req : noderesolver.ResolveRequest)
    : M noderesolver.ResolveResponse :=
  let* respMap := forRange (resolveEntry ctx) (noderesolver.BaseSpiffeIdList req) ∅ in
  ret {| noderesolver.Map := respMap |}.

(** ** Sequences of calls on one plugin *)

Inductive Call :=
| CallConfigure (ctx : Ctx) (req : spi.ConfigureRequest)
| CallResolve (ctx : Ctx) (req : noderesolver.ResolveRequest)
| CallGetRegionClient (region : string).

Definition call_configure_ok (c : Call) (s : State) : bool :=
  match c with
  | CallConfigure ctx req => is_Ok (fst (Configure ctx req s))
  | _ => false
  end.

Definition run_call (c : Call) (s : State) : State :=
  match c with
  | CallConfigure ctx req => snd (Configure ctx req s)
  | CallResolve ctx req => snd (Resolve ctx req s)
  | CallGetRegionClient region => snd (getRegionClient region s)
  end.

(** [no_configure calls s]: run from [s], no [Configure] among [calls]
    succeeds. *)
Fixpoint no_configure (calls : list Call) (s : State) : bool :=
  match calls with
  | [] => true
  | c :: calls' => negb (call_configure_ok c s) && no_configure calls' (run_call c s)
  end.

Definition run_calls (calls : list Call) (s : State) : State :=
  foldl (λ s c, run_call c s) s calls.

(** ** Reading a trace *)

Definition is_warning (ev : Event) : bool :=
  match ev with EvWarnf _ _ => true | _ => false end.

(** The two remote calls of a client. *)
Definition is_remote_call (ev : Event) : bool :=
  match ev with
  | EvDescribeInstances _ _ _ | EvGetInstanceProfile _ _ _ => true
  | _ => false
  end.

(** The error a remote call came back with, if it is one that failed. *)
Definition remote_failure (ev : Event) : option error :=
  match ev with
  | EvDescribeInstances _ _ (Err e) | EvGetInstanceProfile _ _ (Err e) => Some e
  | _ => None
  end.

(** The requests of the instance-profile lookups, in the order sent. *)
Definition profile_request (ev : Event) : option iam.GetInstanceProfileInput :=
  match ev with
  | EvGetInstanceProfile _ input _ => Some input
  | _ => None
  end.

(** The instances a successful instance-description query came back
    with. *)
Definition described_instances (ev : Event) : list ec2.Instance :=
  match ev with
  | EvDescribeInstances _ _ (Ok resp) => all_instances resp
  | _ => []
  end.

Definition error_of {A} (r : result A) : option error :=
  match r with Ok _ => None | Err e => Some e end.

(** How the remote calls of a piece of trace [evs] stand to the outcome
    [err] of the code that made them: the profile lookups sent are, in
    order, those the described instances call for, up to the point
    where the code left, and all of them when it went through without
    error, in which case no remote call failed; a remote call that
    failed is what the code reports, wrapped. *)
Definition remote_discipline (evs : list Event) (err : option error) : Prop :=
  omap profile_request evs
    `prefix_of` omap wanted_profile_request (flat_map described_instances evs) ∧
  (err = None →
   omap profile_request evs
   = omap wanted_profile_request (flat_map described_instances evs) ∧
   omap remote_failure evs = []) ∧
  (∀ e, e ∈ omap remote_failure evs → err = Some (iidError_Wrap e)).

(** The client factory called for [region], whatever it returned. *)
Definition invokes (region : string) (ev : Event) : bool :=
  match ev with
  | EvNewClient c _ => bool_decide (aws.Region c = Some region)
  | _ => false
  end.

(** A client built with success for [region]. *)
Definition constructs (region : string) (ev : Event) : bool :=
  match ev with
  | EvNewClient c (Ok _) => bool_decide (aws.Region c = Some region)
  | _ => false
  end.

(** The request of an instance-description query. *)
Definition describe_request (ev : Event) : option ec2.DescribeInstancesInput :=
  match ev with
  | EvDescribeInstances _ input _ => Some input
  | _ => None
  end.

(** The query that an identity calls for, when it parses. *)
Definition wanted_describe_request (spiffeID : string)
    : option ec2.DescribeInstancesInput :=
  match parseAgentID ParseSpiffeID AllowAnyTrustDomainAgent spiffeID with
  | Ok (_, _, instanceID) =>
      Some {| ec2.InstanceIds := [aws.String_ instanceID];
              ec2.Filters := instanceFilters |}
  | Err _ => None
  end.

(** The error a call of the client factory came back with. *)
Definition new_client_failure (ev : Event) : option error :=
  match ev with
  | EvNewClient _ (Err e) => Some e
  | _ => None
  end.

(** A plugin that has a configuration has a client map to write to. *)
Definition cache_ready (p : IIDResolverPlugin) : Prop :=
  is_Some (conf p) → is_Some (clients p).

(** Why a batch that made the calls [evs] from a plugin with hooks [h]
    left with the error [e]: no configuration; or the client factory
    failed, which is the last thing that happened, and [e] is its
    error; or a remote call failed, which is the last thing that
    happened, and [e] is its error, wrapped. *)
Definition abort_reason (h : Hooks) (evs : list Event) (e : error) : Prop :=
  e = iidError_New "not configured" [] ∨
  (∃ c w w', newClient h c w = (Err e, w') ∧ last evs = Some (EvNewClient c (Err e))) ∨
  (∃ ev e', last evs = Some ev ∧ remote_failure ev = Some e' ∧ e = iidError_Wrap e').

(** [anatomy h evs err]: a failure of the client factory among [evs]
    is what the code left with, and what the code left with has its
    reason in [evs]. *)
Definition anatomy (h : Hooks) (evs : list Event) (err : option error) : Prop :=
  (∀ c e, EvNewClient c (Err e) ∈ evs → err = Some e) ∧
  (∀ e, err = Some e → abort_reason h evs e).

(** Two states that differ in the warnings of their traces at most. *)
Definition same_but_warnings (s1 s2 : State) : Prop :=
  plugin s1 = plugin s2 ∧ world s1 = world s2 ∧
  List.filter (λ ev, negb (is_warning ev)) (trace s1)
  = List.filter (λ ev, negb (is_warning ev)) (trace s2).

End Model.

Arguments awsClient : clear implicits.
Arguments Hooks : clear implicits.
Arguments IIDResolverPlugin : clear implicits.
Arguments Event : clear implicits.
Arguments State : clear implicits.
Arguments Call : clear implicits.

(** ** newAWSClient

    The session and the two service clients made from it belong to the
    SDK; they are taken as given.  The value returned embeds both
    service clients: it answers each call of the interface with the
    method of the service that has it. *)

Section DefaultClient.

Context {W Ctx Session : Type}.
Variable session_NewSession : aws.Config → W → result Session * W.
Variable ec2_DescribeInstancesWithContext :
  Session → Ctx → ec2.DescribeInstancesInput → W → result ec2.DescribeInstancesOutput * W.
Variable iam_GetInstanceProfileWithContext :
  Session → Ctx → iam.GetInstanceProfileInput → W → result iam.GetInstanceProfileOutput * W.

Definition newAWSClient (conf : aws.Config) (w : W) : result (awsClient W Ctx) * W :=
  match session_NewSession conf w with
  | (Err err, w') => (Err (iidError_Wrap err), w')
  | (Ok sess, w') =>
      (Ok {| DescribeInstancesWithContext := ec2_DescribeInstancesWithContext sess;
             GetInstanceProfileWithContext := iam_GetInstanceProfileWithContext sess |},
       w')
  end.

End DefaultClient.

(** ** Stand-ins for the collaborators

    Small executable stand-ins on which the definitions above can be
    run: an identity parser for [spiffe://<trust domain>/<path>] that
    admits agent paths only, a decoder for [<id>:<secret>]
    configurations, and clients with canned answers.  The theorems
    below hold for any collaborators, not only for these. *)

Module Demo.

Fixpoint split_at (c : ascii) (s : string) : string * string :=
  match s with
  | EmptyString => (EmptyString, EmptyString)
  | String a s' =>
      if Ascii.eqb a c then (EmptyString, s)
      else let (h, t) := split_at c s' in (String a h, t)
  end.

Definition ParseSpiffeID (spiffeID : string) (mode : unit) : result url.URL :=
  match strip_prefix "spiffe://" spiffeID with
  | None => Err (External "invalid scheme")
  | Some rest =>
      let (host, path) := split_at "/" rest in
      if nonempty host then
        match strip_prefix "/spire/agent/" path with
        | Some _ => Ok {| url.Scheme := "spiffe"; url.Host := host; url.Path := path |}
        | None => Err (External "not an agent id")
        end
      else Err (External "trust domain is empty")
  end.

Definition hcl_Decode (configuration : string) : result IIDResolverConfig :=
  let (id, rest) := split_at ":" configuration in
  match rest with
  | String _ secret => Ok {| AccessKeyID := id; SecretAccessKey := secret |}
  | EmptyString => Err (External "no colon")
  end.

Definition client (describe : result ec2.DescribeInstancesOutput)
    (profile : result iam.GetInstanceProfileOutput) : awsClient unit unit :=
  {| DescribeInstancesWithContext := λ _ _ w, (describe, w);
     GetInstanceProfileWithContext := λ _ _ w, (profile, w) |}.

Definition no_profile : result iam.GetInstanceProfileOutput :=
  Err (External "NoSuchEntity").

Definition no_instances : result ec2.DescribeInstancesOutput :=
  Ok {| ec2.Reservations := [] |}.

(** A client of a region without instances. *)
Definition idle : awsClient unit unit := client no_instances no_profile.

Definition plugin_with (c : awsClient unit unit) : IIDResolverPlugin unit unit :=
  NewIIDResolverPlugin (λ _, "") (λ _ w, (Ok c, w)).

Definition start (c : awsClient unit unit) : State unit unit :=
  {| plugin := plugin_with c; world := tt; trace := [] |}.

Definition Configure := Configure (W := unit) (Ctx := unit) hcl_Decode.
Definition Resolve := Resolve (W := unit) (Ctx := unit) ParseSpiffeID tt.
Definition run_calls := run_calls (W := unit) (Ctx := unit) ParseSpiffeID tt hcl_Decode.
Definition no_configure := no_configure (W := unit) (Ctx := unit) ParseSpiffeID tt hcl_Decode.
Definition resolveSpiffeID := resolveSpiffeID (W := unit) (Ctx := unit) ParseSpiffeID tt.
Definition parseAgentID := parseAgentID ParseSpiffeID tt.

Definition configured (c : awsClient unit unit) : State unit unit :=
  snd (Configure tt {| spi.Configuration := "AKIA:secret" |} (start c)).

Definition agent1 : string := "spiffe://example.org/spire/agent/aws_iid/123456789012/us-east-1/i-0abcd1234".

(** A configured plugin whose client factory always fails. *)
Definition without_session : State unit unit :=
  snd (Configure tt {| spi.Configuration := "AKIA:secret" |}
         {| plugin := NewIIDResolverPlugin (λ _, "")
                        (λ _ w, (Err (External "no session"), w));
            world := tt; trace := [] |}).

Definition batch (ids : list string) : noderesolver.ResolveRequest :=
  {| noderesolver.BaseSpiffeIdList := ids |}.

Definition describe_agent1 : ec2.DescribeInstancesInput :=
  {| ec2.InstanceIds := [Some "i-0abcd1234"]; ec2.Filters := instanceFilters |}.

(** A client whose instance-description query is refused. *)
Definition throttled : awsClient unit unit :=
  client (Err (External "RequestLimitExceeded")) no_profile.

(** An instance whose profile has an ARN that is the empty string, and
    a profile with one role of that kind and one role without ARN. *)
Definition profiled : ec2.Instance :=
  {| ec2.Tags := []; ec2.SecurityGroups := [];
     ec2.iamInstanceProfile := Some {| ec2.Arn := Some "" |} |}.

Definition blank_roles : iam.GetInstanceProfileOutput :=
  {| iam.instanceProfile :=
       {| iam.Roles := [ {| iam.Arn := Some "" |}; {| iam.Arn := None |} ] |} |}.

Definition blank : awsClient unit unit :=
  client (Ok {| ec2.Reservations := [ {| ec2.Instances := [profiled] |} ] |})
         (Ok blank_roles).

(** The instance of the worked example: one tag, one security group, a
    profile with one role. *)
Definition web1 : ec2.Instance :=
  {| ec2.Tags := [ {| ec2.Key := Some "Name"; ec2.Value := Some "web1" |} ];
     ec2.SecurityGroups :=
       [ {| ec2.GroupId := Some "sg-1"; ec2.GroupName := Some "default" |} ];
     ec2.iamInstanceProfile :=
       Some {| ec2.Arn := Some "arn:aws:iam::123456789012:instance-profile/role1" |} |}.

Definition web1_roles : iam.GetInstanceProfileOutput :=
  {| iam.instanceProfile :=
       {| iam.Roles := [ {| iam.Arn := Some "arn:aws:iam::123456789012:role/role1" |} ] |} |}.

Definition inventory : awsClient unit unit :=
  client (Ok {| ec2.Reservations := [ {| ec2.Instances := [web1] |} ] |})
         (Ok web1_roles).

(** The same instance as [agent1], claimed for another account. *)
Definition agent2 : string := "spiffe://example.org/spire/agent/aws_iid/999999999999/us-east-1/i-0abcd1234".

(** An instance without a profile, and a client that describes it twice. *)
Definition bare : ec2.Instance :=
  {| ec2.Tags := [ {| ec2.Key := Some "Name"; ec2.Value := None |} ];
     ec2.SecurityGroups :=
       [ {| ec2.GroupId := Some "sg-1"; ec2.GroupName := Some "default" |} ];
     ec2.iamInstanceProfile := None |}.

Definition plain : awsClient unit unit :=
  client (Ok {| ec2.Reservations :=
                  [ {| ec2.Instances := [bare] |}; {| ec2.Instances := [bare] |} ] |})
         no_profile.

(** A configured plugin with the client factory of the source, over an
    SDK that cannot open a session. *)
Definition sdk_factory : aws.Config → unit → result (awsClient unit unit) * unit :=
  newAWSClient (Session := unit)
    (λ _ w, (Err (External "no session"), w))
    (λ _ _ _ w, (no_instances, w))
    (λ _ _ _ w, (no_profile, w)).

Definition sdk_without_session : State unit unit :=
  snd (Configure tt {| spi.Configuration := "AKIA:secret" |}
         {| plugin := NewIIDResolverPlugin (λ _, "") sdk_factory;
            world := tt; trace := [] |}).

End Demo.

(** * Properties *)

(** ** Strings *)

Lemma append_cons (a : ascii) (s t : string) :
  String a s +:+ t = String a (s +:+ t).
Proof. reflexivity. Qed.

Lemma append_empty_l (s : string) : "" +:+ s = s.
Proof. reflexivity. Qed.

Lemma append_empty_r (s : string) : s +:+ "" = s.
Proof. induction s as [|a s IH]; [done|]. by rewrite append_cons, IH. Qed.

Lemma append_assoc (s t u : string) : (s +:+ t) +:+ u = s +:+ (t +:+ u).
Proof. induction s as [|a s IH]; [done|]. by rewrite !append_cons, IH. Qed.

Lemma strip_prefix_Some (lit s s' : string) :
  strip_prefix lit s = Some s' ↔ s = lit +:+ s'.
Proof.
  revert s. induction lit as [|a lit IH]; intros s; simpl.
  - rewrite append_empty_l. split; congruence.
  - rewrite append_cons. destruct s as [|b s]; [split; congruence|].
    destruct (Ascii.eqb_spec a b) as [->|Hne].
    + rewrite IH. split; congruence.
    + split; congruence.
Qed.

(** Text cut at the first occurrence of [c] (or at its end) is cut in
    one way only. *)
Lemma cut_unique (c : ascii) (g g' t t' : string) :
  lacks c g = true → lacks c g' = true →
  stops_at c t → stops_at c t' →
  g +:+ t = g' +:+ t' → g = g' ∧ t = t'.
Proof.
  revert g'. induction g as [|a g IH]; intros [|a' g']; simpl;
    rewrite ?append_cons, ?append_empty_l.
  - done.
  - intros _ [Ha' _]%andb_prop Ht _ ->. simpl in Ht. subst a'.
    by rewrite Ascii.eqb_refl in Ha'.
  - intros [Ha _]%andb_prop _ _ Ht' <-. simpl in Ht'. subst a.
    by rewrite Ascii.eqb_refl in Ha.
  - intros [_ Hg]%andb_prop [_ Hg']%andb_prop Ht Ht' [= -> Heq].
    destruct (IH g' Hg Hg' Ht Ht' Heq) as [-> ->]. done.
Qed.

(** ** The matcher *)

Lemma plus_not_sound {A} (c : ascii) (k : string → string → option A)
    (acc s : string) (r : A) :
  plus_not c k acc s = Some r →
  ∃ g s', s = g +:+ s' ∧ lacks c g = true ∧
          nonempty (acc +:+ g) = true ∧ k (acc +:+ g) s' = Some r.
Proof.
  revert acc. induction s as [|a s IH]; intros acc; simpl.
  - destruct (nonempty acc) eqn:Hacc; [|done]. intros Hk.
    exists "", "". by rewrite !append_empty_r.
  - assert (Hstop : (if nonempty acc then k acc (String a s) else None) = Some r →
      ∃ g s', String a s = g +:+ s' ∧ lacks c g = true ∧
              nonempty (acc +:+ g) = true ∧ k (acc +:+ g) s' = Some r).
    { destruct (nonempty acc) eqn:Hacc; [|done]. intros Hk.
      exists "", (String a s). by rewrite !append_empty_r. }
    destruct (Ascii.eqb a c) eqn:Hac; [done|].
    destruct (plus_not c k (acc +:+ String a "") s) as [r'|] eqn:Hrec; [|done].
    intros [= ->]. destruct (IH _ Hrec) as (g & s' & -> & Hg & Hne & Hk).
    exists (String a g), s'. rewrite append_assoc in Hne, Hk.
    simpl. by rewrite Hac.
Qed.

Lemma plus_not_complete {A} (c : ascii) (k : string → string → option A)
    (acc g s' : string) (r : A) :
  lacks c g = true → nonempty (acc +:+ g) = true →
  k (acc +:+ g) s' = Some r →
  is_Some (plus_not c k acc (g +:+ s')).
Proof.
  revert acc. induction g as [|a g IH]; intros acc.
  - rewrite !append_empty_r, append_empty_l. intros _ Hacc Hk.
    destruct s' as [|b s']; simpl; rewrite Hacc, Hk; [by eexists|].
    destruct (Ascii.eqb b c); [by eexists|].
    destruct (plus_not c k _ s'); by eexists.
  - simpl. intros [Ha Hg]%andb_prop Hne Hk.
    apply negb_true_iff in Ha. rewrite Ha.
    destruct (IH (acc +:+ String a "")) as [r' ->].
    + done.
    + by rewrite append_assoc.
    + by rewrite append_assoc.
    + by eexists.
Qed.

Lemma match_end (s : string) (l : list string) :
  match_items [] s = Some l ↔ s = "" ∧ l = [].
Proof.
  destruct s; simpl; split.
  - by intros [= <-].
  - by intros [_ ->].
  - done.
  - by intros [? _].
Qed.

Lemma match_literal (lit : string) (rest : list re_item) (s : string) (l : list string) :
  match_items (Literal lit :: rest) s = Some l ↔
  ∃ s', s = lit +:+ s' ∧ match_items rest s' = Some l.
Proof.
  simpl. destruct (strip_prefix lit s) as [s1|] eqn:Hs.
  - apply strip_prefix_Some in Hs as ->. split; [by exists s1|].
    by intros (s' & ->%(inj _) & ?).
  - split; [done|]. intros (s' & Heq%strip_prefix_Some & _). congruence.
Qed.

Lemma match_group_sound (c : ascii) (rest : list re_item) (s : string) (l : list string) :
  match_items (CaptureNotPlus c :: rest) s = Some l →
  ∃ g s' l', l = g :: l' ∧ s = g +:+ s' ∧ lacks c g = true ∧
             nonempty g = true ∧ match_items rest s' = Some l'.
Proof.
  simpl. intros (g & s' & -> & Hg & Hne & Hk)%plus_not_sound.
  rewrite append_empty_l in Hne, Hk.
  destruct (match_items rest s') as [l'|] eqn:Hrest; [|done].
  injection Hk as <-. by exists g, s', l'.
Qed.

Lemma match_group_complete (c : ascii) (rest : list re_item) (g s' : string)
    (l' : list string) :
  lacks c g = true → nonempty g = true → match_items rest s' = Some l' →
  is_Some (match_items (CaptureNotPlus c :: rest) (g +:+ s')).
Proof.
  intros Hg Hne Hrest. simpl.
  apply plus_not_complete with (r := g :: l'); [done|done|].
  rewrite append_empty_l. by rewrite Hrest.
Qed.

Lemma segment_parts (s : string) :
  segment s = true ↔ nonempty s = true ∧ lacks "/" s = true.
Proof. unfold segment. apply andb_true_iff. Qed.

(** The pattern matches exactly the paths made of the fixed prefix and
    three segments, and captures the three segments. *)
Lemma match_reAgentIDPath (path : string) (l : list string) :
  match_items reAgentIDPath path = Some l ↔
  ∃ a r i, l = [a; r; i] ∧
    path = "/spire/agent/aws_iid/" +:+ a +:+ "/" +:+ r +:+ "/" +:+ i ∧
    segment a = true ∧ segment r = true ∧ segment i = true.
Proof.
  assert (Hsound : ∀ path l, match_items reAgentIDPath path = Some l →
    ∃ a r i, l = [a; r; i] ∧
      path = "/spire/agent/aws_iid/" +:+ a +:+ "/" +:+ r +:+ "/" +:+ i ∧
      segment a = true ∧ segment r = true ∧ segment i = true).
  { clear. intros path l. unfold reAgentIDPath.
    intros (s1 & -> & H1)%match_literal.
    apply match_group_sound in H1 as (a & s2 & l1 & -> & -> & Ha & Hna & H2).
    apply match_literal in H2 as (s3 & -> & H3).
    apply match_group_sound in H3 as (r & s4 & l2 & -> & -> & Hr & Hnr & H4).
    apply match_literal in H4 as (s5 & -> & H5).
    apply match_group_sound in H5 as (i & s6 & l3 & -> & -> & Hi & Hni & H6).
    apply match_end in H6 as [-> ->]. rewrite append_empty_r.
    exists a, r, i. rewrite !segment_parts. done. }
  split; [apply Hsound|].
  intros (a & r & i & -> & -> & [Hna Ha]%segment_parts &
          [Hnr Hr]%segment_parts & [Hni Hi]%segment_parts).
  assert (Hsome : is_Some (match_items reAgentIDPath
    ("/spire/agent/aws_iid/" +:+ a +:+ "/" +:+ r +:+ "/" +:+ i))).
  { unfold reAgentIDPath.
    assert (H6 : match_items [] "" = Some []) by done.
    pose proof (match_group_complete "/" [] i "" [] Hi Hni H6) as [l5 H5].
    assert (H4 : match_items [Literal "/"; CaptureNotPlus "/"] ("/" +:+ i +:+ "")
                 = Some l5) by (apply match_literal; eauto).
    pose proof (match_group_complete "/" _ r _ _ Hr Hnr H4) as [l3 H3].
    assert (H2 : match_items
                   [Literal "/"; CaptureNotPlus "/"; Literal "/"; CaptureNotPlus "/"]
                   ("/" +:+ r +:+ "/" +:+ i +:+ "") = Some l3)
      by (apply match_literal; eauto).
    pose proof (match_group_complete "/" _ a _ _ Ha Hna H2) as [l1 H1].
    exists l1. apply match_literal. eexists. split; [|exact H1].
    by rewrite append_empty_r. }
  destruct Hsome as [l Hl]. rewrite Hl. f_equal.
  destruct (Hsound _ _ Hl) as (a' & r' & i' & -> & Heq & [Hna' Ha']%segment_parts &
    [Hnr' Hr']%segment_parts & [Hni' Hi']%segment_parts).
  apply (inj _) in Heq.
  apply (cut_unique "/") in Heq as [-> Heq]; [|done..].
  apply (inj (String.append "/")) in Heq.
  apply (cut_unique "/") in Heq as [-> Heq]; [|done..].
  apply (inj (String.append "/")) in Heq.
  rewrite <-(append_empty_r i), <-(append_empty_r i') in Heq.
  apply (cut_unique "/") in Heq as [-> _]; done.
Qed.

(** ** parseAgentID *)

Section ParseProofs.
Context {ValidationMode : Type}.
Variable ParseSpiffeID : string → ValidationMode → result url.URL.
Variable AllowAnyTrustDomainAgent : ValidationMode.

Local Abbreviation parse := (parseAgentID ParseSpiffeID AllowAnyTrustDomainAgent).

(** [shaped path a r i]: [path] is the agent prefix of this resolver
    followed by the three segments [a], [r] and [i]. *)
Local Abbreviation shaped path a r i :=
  (path = "/spire/agent/aws_iid/" +:+ a +:+ "/" +:+ r +:+ "/" +:+ i ∧
   segment a = true ∧ segment r = true ∧ segment i = true).

Lemma parseAgentID_Ok (spiffeID a r i : string) :
  parse spiffeID = Ok (a, r, i) ↔
  ∃ u, ParseSpiffeID spiffeID AllowAnyTrustDomainAgent = Ok u ∧ shaped (url.Path u) a r i.
Proof.
  unfold parseAgentID, FindStringSubmatch.
  destruct (ParseSpiffeID spiffeID AllowAnyTrustDomainAgent) as [u|e].
  2:{ split; [done|]. by intros (u & ? & _). }
  destruct (match_items reAgentIDPath (url.Path u)) as [l|] eqn:Hm; simpl.
  - apply match_reAgentIDPath in Hm as (a' & r' & i' & -> & Hshape).
    split.
    + intros [= <- <- <-]. by exists u.
    + intros (u' & [= <-] & Hpath & Ha & Hr & Hi).
      assert (Hm' : match_items reAgentIDPath (url.Path u) = Some [a; r; i])
        by (apply match_reAgentIDPath; by exists a, r, i).
      assert (Hm : match_items reAgentIDPath (url.Path u) = Some [a'; r'; i'])
        by (apply match_reAgentIDPath; by exists a', r', i').
      congruence.
  - split; [done|]. intros (u' & [= <-] & Hshape).
    assert (Hm' : match_items reAgentIDPath (url.Path u) = Some [a; r; i])
      by (apply match_reAgentIDPath; by exists a, r, i).
    congruence.
Qed.

(** C6. An identity parses exactly when its path, as the identity
    library reads it, is the agent prefix of this resolver followed by
    three segments, each non-empty and free of slashes; the parse then
    returns the three segments as account ID, region and instance ID,
    in that order. *)
Theorem parseAgentID_three_segments (spiffeID : string) :
  (is_Ok (parse spiffeID) = true ↔
   ∃ u a r i, ParseSpiffeID spiffeID AllowAnyTrustDomainAgent = Ok u ∧
              shaped (url.Path u) a r i) ∧
  (∀ accountID region instanceID,
     parse spiffeID = Ok (accountID, region, instanceID) ↔
     ∃ u, ParseSpiffeID spiffeID AllowAnyTrustDomainAgent = Ok u ∧
          shaped (url.Path u) accountID region instanceID).
Proof.
  split; [|intros; apply parseAgentID_Ok].
  split.
  - destruct (parse spiffeID) as [[[a r] i]|e] eqn:Hp; [|done].
    intros _. apply parseAgentID_Ok in Hp as (u & ? & ?). by exists u, a, r, i.
  - intros (u & a & r & i & Hu & Hshape).
    assert (Hp : parse spiffeID = Ok (a, r, i)) by (apply parseAgentID_Ok; eauto).
    by rewrite Hp.
Qed.

End ParseProofs.

Lemma parseAgentID_three_segments_witness :
  Demo.parseAgentID Demo.agent1 = Ok ("123456789012", "us-east-1", "i-0abcd1234").
Proof.
  apply (proj2 (parseAgentID_three_segments Demo.ParseSpiffeID tt Demo.agent1)).
  exists {| url.Scheme := "spiffe"; url.Host := "example.org";
            url.Path := "/spire/agent/aws_iid/123456789012/us-east-1/i-0abcd1234" |}.
  repeat split; reflexivity.
Defined.

Example parseAgentID_four_segments :
  Demo.parseAgentID "spiffe://example.org/spire/agent/aws_iid/a/b/c/d"
  = Err (errs_New "malformed agent id %q"
           [ArgString "spiffe://example.org/spire/agent/aws_iid/a/b/c/d"]).
Proof. reflexivity. Qed.

Example parseAgentID_empty_segment :
  is_Ok (Demo.parseAgentID "spiffe://example.org/spire/agent/aws_iid/a//c") = false.
Proof. reflexivity. Qed.

(** ** Deduplication and sorting *)

Lemma elem_of_addSelectors (selectorSet : gset string) (values : list string) (v : string) :
  v ∈ addSelectors selectorSet values ↔ v ∈ selectorSet ∨ v ∈ values.
Proof.
  unfold addSelectors. revert selectorSet.
  induction values as [|x values IH]; intros selectorSet; simpl.
  - rewrite elem_of_nil. tauto.
  - rewrite IH, elem_of_union, elem_of_singleton, elem_of_cons. tauto.
Qed.

Lemma addSelectors_app (selectorSet : gset string) (l1 l2 : list string) :
  addSelectors (addSelectors selectorSet l1) l2 = addSelectors selectorSet (l1 ++ l2).
Proof. unfold addSelectors. by rewrite foldl_app. Qed.

Lemma sort_Strings_Permutation (values : list string) : sort_Strings values ≡ₚ values.
Proof. apply merge_sort_Permutation. Qed.

Lemma sort_Strings_Sorted (values : list string) :
  StronglySorted String.le (sort_Strings values).
Proof. apply (StronglySorted_merge_sort String.le). Qed.

(** Whatever order the map is walked in, sorting gives one list. *)
Lemma sort_Strings_any_order (keys keys' : list string) :
  keys ≡ₚ keys' → sort_Strings keys = sort_Strings keys'.
Proof.
  intros Hperm. apply (StronglySorted_unique String.le).
  - apply sort_Strings_Sorted.
  - apply sort_Strings_Sorted.
  - by rewrite !sort_Strings_Permutation.
Qed.

Lemma StronglySorted_strict (l : list string) :
  StronglySorted String.le l → NoDup l → StronglySorted (strict String.le) l.
Proof.
  induction 1 as [|x l Hl IH Hx]; intros Hnd; constructor.
  - apply IH. by apply NoDup_cons_1_2 in Hnd.
  - apply NoDup_cons_1_1 in Hnd. apply Forall_forall. intros y Hy. split.
    + rewrite Forall_forall in Hx. by apply Hx.
    + intros Hyx. rewrite Forall_forall in Hx.
      assert (x = y) as -> by (apply (anti_symm String.le); auto). done.
Qed.

Lemma makeSelectors_values (selectorSet : gset string) :
  common.Value <$> common.Entries (makeSelectors selectorSet)
  = sort_Strings (elements selectorSet).
Proof.
  unfold makeSelectors. simpl. rewrite <-list_fmap_compose.
  induction (sort_Strings (elements selectorSet)) as [|x l IH]; [done|].
  rewrite fmap_cons. by rewrite IH.
Qed.

(** C4. Normalization removes duplicates and sorts: the values of the
    selectors it returns are pairwise distinct, strictly ascending in
    byte order, exactly the values it was given, all of the resolver's
    selector type; and two collections holding the same values, in
    whatever order and however many times, give the same selectors. *)
Theorem normalize_dedup_sorted (values : list string) :
  let out := common.Value <$> common.Entries (normalize values) in
  NoDup out ∧
  StronglySorted (strict String.le) out ∧
  (∀ v, v ∈ out ↔ v ∈ values) ∧
  (∀ sel, sel ∈ common.Entries (normalize values) → common.Type_ sel = pluginName) ∧
  (∀ values', (∀ v, v ∈ values' ↔ v ∈ values) → normalize values' = normalize values).
Proof.
  unfold normalize. cbv zeta. rewrite makeSelectors_values.
  assert (Hnd : NoDup (sort_Strings (elements (addSelectors ∅ values)))).
  { rewrite sort_Strings_Permutation. apply NoDup_elements. }
  split; [done|]. split; [|split; [|split]].
  - apply StronglySorted_strict; [apply sort_Strings_Sorted|done].
  - intros v. rewrite sort_Strings_Permutation, elem_of_elements, elem_of_addSelectors.
    rewrite elem_of_empty. tauto.
  - intros sel. unfold makeSelectors. simpl. rewrite list_elem_of_fmap.
    by intros (v & -> & _).
  - intros values' Hsame. f_equal. apply set_eq. intros v.
    rewrite !elem_of_addSelectors, Hsame. tauto.
Qed.

Lemma normalize_dedup_sorted_witness :
  normalize ["sg:id:sg-1"; "tag:Name:web1"; "sg:id:sg-1"]
  = normalize ["tag:Name:web1"; "sg:id:sg-1"; "tag:Name:web1"].
Proof.
  apply (normalize_dedup_sorted ["tag:Name:web1"; "sg:id:sg-1"; "tag:Name:web1"]).
  intros v. rewrite !elem_of_cons, !elem_of_nil. tauto.
Defined.

Example normalize_spec_example :
  common.Value <$> common.Entries
    (normalize
       [ "tag:Name:web1"; "sg:id:sg-1"; "sg:name:default";
         "iamrole:arn:aws:iam::123456789012:role/role1"; "sg:id:sg-1" ])
  = [ "iamrole:arn:aws:iam::123456789012:role/role1";
      "sg:id:sg-1"; "sg:name:default"; "tag:Name:web1" ].
Proof. vm_compute. reflexivity. Qed.

(** ** Configure *)

Section ConfigureProofs.
Context {W Ctx : Type}.
Variable hcl_Decode : string → result IIDResolverConfig.

Lemma eqb_empty_false (x : string) : x ≠ "" → String.eqb x "" = false.
Proof. by intros ?%String.eqb_neq. Qed.

(** C5. After the environment defaults are applied: with the access key
    ID alone, Configure fails naming the missing secret access key; with
    the secret alone, it fails naming the missing access key ID; either
    way the plugin is left as it was.  With both, Configure succeeds,
    installs a configuration holding them as static credentials, and
    starts from an empty client cache. *)
Theorem Configure_credentials (ctx : Ctx) (req : spi.ConfigureRequest)
    (config : IIDResolverConfig) (s : State W Ctx) :
  hcl_Decode (spi.Configuration req) = Ok config →
  let accessKeyID := orEnv (hooks (plugin s)) (AccessKeyID config) "AWS_ACCESS_KEY_ID" in
  let secretAccessKey := orEnv (hooks (plugin s)) (SecretAccessKey config) "AWS_SECRET_ACCESS_KEY" in
  (accessKeyID ≠ "" → secretAccessKey = "" →
   Configure hcl_Decode ctx req s
   = (Err (iidError_New "configuration missing secret access key" []), s)) ∧
  (accessKeyID = "" → secretAccessKey ≠ "" →
   Configure hcl_Decode ctx req s
   = (Err (iidError_New "configuration missing access key id" []), s)) ∧
  (accessKeyID ≠ "" → secretAccessKey ≠ "" →
   Configure hcl_Decode ctx req s
   = (Ok spi.mkConfigureResponse,
      set_plugin
        {| conf := Some {| aws.Credentials :=
                             Some (credentials.NewStaticCredentials
                                     accessKeyID secretAccessKey "");
                           aws.Region := None |};
           clients := Some ∅;
           hooks := hooks (plugin s) |} s)).
Proof.
  intros Hdec accessKeyID secretAccessKey. unfold Configure. rewrite Hdec.
  fold (orEnv (hooks (plugin s)) (AccessKeyID config) "AWS_ACCESS_KEY_ID").
  fold (orEnv (hooks (plugin s)) (SecretAccessKey config) "AWS_SECRET_ACCESS_KEY").
  fold accessKeyID secretAccessKey. cbv zeta. repeat split.
  - intros Ha ->. by rewrite (eqb_empty_false _ Ha).
  - intros -> Hk. by rewrite (eqb_empty_false _ Hk).
  - intros Ha Hk. by rewrite (eqb_empty_false _ Ha), (eqb_empty_false _ Hk).
Qed.

(** A successful Configure always leaves an empty client cache. *)
Lemma Configure_Ok_clients (ctx : Ctx) (req : spi.ConfigureRequest)
    (s s' : State W Ctx) (resp : spi.ConfigureResponse) :
  Configure hcl_Decode ctx req s = (Ok resp, s') →
  clients (plugin s') = Some ∅ ∧ is_Some (conf (plugin s')) ∧
  hooks (plugin s') = hooks (plugin s) ∧ world s' = world s ∧ trace s' = trace s.
Proof.
  unfold Configure. destruct (hcl_Decode _) as [config|e]; [|done].
  cbv zeta. repeat case_match; intros ?; simplify_eq; simpl; eauto.
Qed.

Lemma Configure_Err_state (ctx : Ctx) (req : spi.ConfigureRequest)
    (s s' : State W Ctx) (e : error) :
  Configure hcl_Decode ctx req s = (Err e, s') → s' = s.
Proof.
  unfold Configure. destruct (hcl_Decode _) as [config|e']; [|congruence].
  cbv zeta. repeat case_match; congruence.
Qed.

End ConfigureProofs.

Lemma Configure_credentials_witness :
  Demo.Configure tt {| spi.Configuration := "AKIA:" |} (Demo.start Demo.idle)
  = (Err (iidError_New "configuration missing secret access key" []),
     Demo.start Demo.idle).
Proof.
  refine (proj1 (Configure_credentials Demo.hcl_Decode tt
                   {| spi.Configuration := "AKIA:" |}
                   {| AccessKeyID := "AKIA"; SecretAccessKey := "" |}
                   (Demo.start _) _) _ _).
  - reflexivity.
  - discriminate.
  - reflexivity.
Defined.

Example Configure_both :
  conf (plugin (Demo.configured Demo.idle))
  = Some {| aws.Credentials := Some (credentials.NewStaticCredentials "AKIA" "secret" "");
            aws.Region := None |}.
Proof. reflexivity. Qed.

Example Configure_secret_only :
  fst (Demo.Configure tt {| spi.Configuration := ":secret" |}
         (Demo.start Demo.idle))
  = Err (iidError_New "configuration missing access key id" []).
Proof. reflexivity. Qed.

(** ** The monad and the loops *)

Section ResolveProofs.
Context {W Ctx ValidationMode : Type}.
Variable ParseSpiffeID : string → ValidationMode → result url.URL.
Variable AllowAnyTrustDomainAgent : ValidationMode.
Variable hcl_Decode : string → result IIDResolverConfig.

Local Abbreviation parse := (parseAgentID ParseSpiffeID AllowAnyTrustDomainAgent).
Local Abbreviation resolveOne := (resolveSpiffeID ParseSpiffeID AllowAnyTrustDomainAgent).
Local Abbreviation entry := (resolveEntry ParseSpiffeID AllowAnyTrustDomainAgent).
Local Abbreviation ResolveAll := (Resolve ParseSpiffeID AllowAnyTrustDomainAgent).
Local Abbreviation ST := (State W Ctx).
Local Abbreviation Mon := (@M W Ctx).

Lemma forRange_cons {A B} (f : B → A → Mon B) (x : A) (l : list A) (b : B) (s : ST) :
  forRange f (x :: l) b s
  = match f b x s with
    | (Ok b', s') => forRange f l b' s'
    | (Err e, s') => (Err e, s')
    end.
Proof. reflexivity. Qed.

Lemma forRange_app {A B} (f : B → A → Mon B) (l1 l2 : list A) (b : B) (s : ST) :
  forRange f (l1 ++ l2) b s
  = match forRange f l1 b s with
    | (Ok b', s') => forRange f l2 b' s'
    | (Err e, s') => (Err e, s')
    end.
Proof.
  revert b s. induction l1 as [|x l1 IH]; intros b s; [done|].
  rewrite <-app_comm_cons, !forRange_cons.
  destruct (f b x s) as [[b'|e] s']; [apply IH|done].
Qed.

(** The two nested loops walk the instances of the answer in order. *)
Lemma forRange_reservations (ctx : Ctx) (client : awsClient W Ctx)
    (rs : list ec2.Reservation) (selectorSet : gset string) (s : ST) :
  forRange (resolveReservation ctx client) rs selectorSet s
  = forRange (resolveInstance ctx client) (flat_map ec2.Instances rs) selectorSet s.
Proof.
  revert selectorSet s. induction rs as [|r rs IH]; intros selectorSet s; [done|].
  simpl flat_map. rewrite forRange_app, forRange_cons. unfold resolveReservation at 1.
  destruct (forRange _ (ec2.Instances r) selectorSet s) as [[b'|e] s']; [apply IH|done].
Qed.

(** ** getRegionClient *)

Lemma getRegionClient_hit (region : string) (client : awsClient W Ctx) (s : ST) :
  lookupClient (plugin s) region = Some client →
  getRegionClient region s = (Ok client, s).
Proof. intros H. unfold getRegionClient. by rewrite H. Qed.

Lemma getRegionClient_not_configured (region : string) (s : ST) :
  conf (plugin s) = None → lookupClient (plugin s) region = None →
  getRegionClient region s = (Err (iidError_New "not configured" []), s).
Proof. intros Hc Hl. unfold getRegionClient. by rewrite Hl, Hc. Qed.

(** What a miss does, case by case. *)
Lemma getRegionClient_miss (region : string) (s : ST) (c : aws.Config) :
  lookupClient (plugin s) region = None → conf (plugin s) = Some c →
  let c' := {| aws.Credentials := aws.Credentials c; aws.Region := Some region |} in
  let p1 := {| conf := Some c'; clients := clients (plugin s); hooks := hooks (plugin s) |} in
  let (r, w) := newClient (hooks (plugin s)) c' (world s) in
  let s2 := emit (EvNewClient c' r) (set_world w (set_plugin p1 s)) in
  getRegionClient region s
  = match r with
    | Err err => (Err err, s2)
    | Ok client =>
        match clients (plugin s) with
        | None => (Err (Panic "assignment to entry in nil map"), s2)
        | Some m =>
            (Ok client,
             set_plugin {| conf := Some c'; clients := Some (<[region := client]> m);
                           hooks := hooks (plugin s) |} s2)
        end
    end.
Proof.
  intros Hl Hc. cbv zeta. unfold getRegionClient. rewrite Hl, Hc.
  unfold callNewClient. simpl.
  destruct (newClient _ _ _) as [[client|err] w]; simpl; [|done].
  by destruct (clients (plugin s)).
Qed.

Lemma getRegionClient_Ok (region : string) (client : awsClient W Ctx) (s s' : ST) :
  getRegionClient region s = (Ok client, s') →
  lookupClient (plugin s') region = Some client.
Proof.
  destruct (lookupClient (plugin s) region) as [cl|] eqn:Hl.
  - rewrite (getRegionClient_hit _ _ _ Hl). by intros [= <- <-].
  - destruct (conf (plugin s)) as [c|] eqn:Hc.
    + pose proof (getRegionClient_miss region s c Hl Hc) as H. cbv zeta in H.
      destruct (newClient _ _ _) as [[cl|err] w]; rewrite H; [|done].
      destruct (clients (plugin s)) as [m|]; [|done].
      intros [= <- <-]. unfold lookupClient. simpl. by rewrite lookup_insert_eq.
    + by rewrite getRegionClient_not_configured.
Qed.

(** A cached client stays cached, whatever region is asked for next. *)
Lemma getRegionClient_keeps (region region' : string) (client : awsClient W Ctx) (s : ST) :
  lookupClient (plugin s) region' = Some client →
  lookupClient (plugin (snd (getRegionClient region s))) region' = Some client.
Proof.
  intros Hkeep.
  destruct (lookupClient (plugin s) region) as [cl|] eqn:Hl.
  - by rewrite (getRegionClient_hit _ _ _ Hl).
  - destruct (conf (plugin s)) as [c|] eqn:Hc.
    + pose proof (getRegionClient_miss region s c Hl Hc) as H. cbv zeta in H.
      destruct (newClient _ _ _) as [[cl|err] w]; rewrite H; [|done].
      unfold lookupClient in *.
      destruct (clients (plugin s)) as [m|]; [|done]. simpl.
      rewrite lookup_insert_ne; [done|]. intros ->. congruence.
    + by rewrite getRegionClient_not_configured.
Qed.

(** ** The body of the instance loop *)

(** The values of an instance that need no lookup. *)
Local Abbreviation with_tags_and_groups selectorSet instance :=
  (addSelectors (addSelectors selectorSet (resolveTags (ec2.Tags instance)))
     (resolveSecurityGroups (ec2.SecurityGroups instance))).

Lemma resolveInstance_no_lookup (ctx : Ctx) (client : awsClient W Ctx)
    (selectorSet : gset string) (instance : ec2.Instance) (s : ST) :
  wanted_profile_request instance = None →
  resolveInstance ctx client selectorSet instance s
  = (Ok (with_tags_and_groups selectorSet instance), s).
Proof.
  unfold wanted_profile_request, resolveInstance.
  destruct (ec2.iamInstanceProfile instance) as [profile|]; [|done].
  by destruct (ec2.Arn profile).
Qed.

Lemma resolveInstance_lookup (ctx : Ctx) (client : awsClient W Ctx)
    (selectorSet : gset string) (instance : ec2.Instance) (s : ST)
    (input : iam.GetInstanceProfileInput) :
  wanted_profile_request instance = Some input →
  let (r, w) := GetInstanceProfileWithContext client ctx input (world s) in
  resolveInstance ctx client selectorSet instance s
  = (match r with
     | Ok output =>
         Ok (addSelectors (with_tags_and_groups selectorSet instance)
               (resolveInstanceProfile (iam.instanceProfile output)))
     | Err e => Err (iidError_Wrap e)
     end,
     emit (EvGetInstanceProfile client input r) (set_world w s)).
Proof.
  unfold wanted_profile_request, resolveInstance.
  destruct (ec2.iamInstanceProfile instance) as [profile|]; [|done].
  destruct (ec2.Arn profile) as [arn|] eqn:Harn; [|done].
  intros [= <-]. unfold bind, wrapErr, callGetInstanceProfile.
  destruct (GetInstanceProfileWithContext _ _ _ _) as [[output|e] w]; done.
Qed.

(** ** Invariants of a batch

    A property of the state that survives [getRegionClient], and the
    logging of a warning or of a remote call whatever the remote call
    did to the world, survives [Resolve]. *)

Section Invariant.
Variable P : ST → Prop.
Hypothesis P_client : ∀ region s, P s → P (snd (getRegionClient region s)).
Hypothesis P_event : ∀ ev w s,
  is_warning ev || is_remote_call ev = true → P s → P (emit ev (set_world w s)).

Lemma forRange_invariant {A B} (f : B → A → Mon B) :
  (∀ b x s, P s → P (snd (f b x s))) →
  ∀ l b s, P s → P (snd (forRange f l b s)).
Proof.
  intros Hf l. induction l as [|x l IH]; intros b s Hs; [done|].
  rewrite forRange_cons. specialize (Hf b x s Hs).
  destruct (f b x s) as [[b'|e] s']; [by apply IH|done].
Qed.

Lemma resolveInstance_invariant (ctx : Ctx) (client : awsClient W Ctx)
    (selectorSet : gset string) (instance : ec2.Instance) (s : ST) :
  P s → P (snd (resolveInstance ctx client selectorSet instance s)).
Proof.
  intros Hs. destruct (wanted_profile_request instance) as [input|] eqn:Hw.
  - pose proof (resolveInstance_lookup ctx client selectorSet instance s input Hw) as H.
    destruct (GetInstanceProfileWithContext _ _ _ _) as [r w]. rewrite H. simpl.
    by apply P_event.
  - by rewrite resolveInstance_no_lookup.
Qed.

Lemma resolveSpiffeID_invariant (ctx : Ctx) (spiffeID : string) (s : ST) :
  P s → P (snd (resolveOne ctx spiffeID s)).
Proof.
  intros Hs. unfold resolveSpiffeID.
  destruct (parse spiffeID) as [[[a region] instanceID]|e].
  - unfold bind at 1. pose proof (P_client region s Hs) as H1.
    destruct (getRegionClient region s) as [[client|e] s1]; [|done].
    unfold bind at 1, wrapErr, callDescribeInstances. simpl in H1.
    destruct (DescribeInstancesWithContext _ _ _ _) as [r w].
    assert (H2 : P (emit (EvDescribeInstances client
                  {| ec2.InstanceIds := [aws.String_ instanceID];
                     ec2.Filters := instanceFilters |} r) (set_world w s1)))
      by (by apply P_event).
    destruct r as [resp|e]; [|done].
    unfold bind. rewrite forRange_reservations.
    pose proof (forRange_invariant (resolveInstance ctx client)
                  (λ b x s, resolveInstance_invariant ctx client b x s)
                  (flat_map ec2.Instances (ec2.Reservations resp)) ∅ _ H2) as H3.
    destruct (forRange _ _ _ _) as [[selectorSet|e] s3]; done.
  - unfold bind, Warnf. simpl.
    by apply (P_event (EvWarnf _ _) (world s) s).
Qed.

Lemma resolveEntry_invariant (ctx : Ctx) (respMap : gmap string common.Selectors)
    (spiffeID : string) (s : ST) :
  P s → P (snd (entry ctx respMap spiffeID s)).
Proof.
  intros Hs. unfold resolveEntry, bind.
  pose proof (resolveSpiffeID_invariant ctx spiffeID s Hs) as H.
  destruct (resolveOne ctx spiffeID s) as [[[sel|]|e] s']; done.
Qed.

Lemma Resolve_invariant (ctx : Ctx) (req : noderesolver.ResolveRequest) (s : ST) :
  P s → P (snd (ResolveAll ctx req s)).
Proof.
  intros Hs. unfold Resolve, bind.
  pose proof (forRange_invariant (entry ctx) (resolveEntry_invariant ctx)
                (noderesolver.BaseSpiffeIdList req) ∅ s Hs) as H.
  destruct (forRange _ _ _ _) as [[m|e] s']; done.
Qed.

End Invariant.

(** ** The client cache over sequences of calls *)

Local Abbreviation quiet := (no_configure ParseSpiffeID AllowAnyTrustDomainAgent hcl_Decode).
Local Abbreviation run := (run_calls ParseSpiffeID AllowAnyTrustDomainAgent hcl_Decode).
Local Abbreviation run1 := (run_call ParseSpiffeID AllowAnyTrustDomainAgent hcl_Decode).

Lemma run_calls_cons (c : Call Ctx) (calls : list (Call Ctx)) (s : ST) :
  run (c :: calls) s = run calls (run1 c s).
Proof. reflexivity. Qed.

(** An invariant of [getRegionClient] and of logging survives every
    sequence of calls in which no Configure succeeds. *)
Lemma run_calls_invariant (P : ST → Prop) :
  (∀ region s, P s → P (snd (getRegionClient region s))) →
  (∀ ev w s, is_warning ev || is_remote_call ev = true → P s →
             P (emit ev (set_world w s))) →
  ∀ calls s, quiet calls s = true → P s → P (run calls s).
Proof.
  intros Hclient Hevent calls.
  induction calls as [|c calls IH]; intros s Hq Hs; [done|].
  rewrite run_calls_cons. simpl in Hq. apply andb_prop in Hq as [Hc Hq].
  apply IH; [done|]. destruct c as [ctx req|ctx req|region]; simpl in *.
  - destruct (Configure hcl_Decode ctx req s) as [[resp|e] s'] eqn:Hconf; [done|].
    apply Configure_Err_state in Hconf as ->. done.
  - by apply Resolve_invariant.
  - by apply Hclient.
Qed.

(** The number of clients built for [region] among [evs]. *)
Local Abbreviation built region evs :=
  (length (List.filter (constructs (W := W) (Ctx := Ctx) region) evs)).

Lemma built_snoc (region : string) (evs : list (Event W Ctx)) (ev : Event W Ctx) :
  built region (evs ++ [ev])
  = built region evs + (if constructs region ev then 1 else 0).
Proof.
  rewrite List.filter_app, length_app. simpl. by destruct (constructs region ev).
Qed.

(** Since the trace [t0]: as many clients built for a region as the
    cache holds for it, that is one or none. *)
Lemma built_invariant (t0 : list (Event W Ctx)) (calls : list (Call Ctx)) (s : ST) :
  let Inv (s : ST) :=
    is_Some (clients (plugin s)) ∧
    ∃ evs, trace s = t0 ++ evs ∧
      ∀ region, built region evs
                = match lookupClient (plugin s) region with
                  | Some _ => 1
                  | None => 0
                  end in
  quiet calls s = true → Inv s → Inv (run calls s).
Proof.
  intros Inv. apply run_calls_invariant; subst Inv; cbv beta.
  - intros region s' (Hsome & evs & Htr & Hcount).
    destruct (lookupClient (plugin s') region) as [cl|] eqn:Hl.
    { rewrite (getRegionClient_hit _ _ _ Hl). eauto. }
    destruct (conf (plugin s')) as [c|] eqn:Hc.
    2:{ rewrite getRegionClient_not_configured by done. eauto. }
    pose proof (getRegionClient_miss region s' c Hl Hc) as H. cbv zeta in H.
    destruct Hsome as [m Hm].
    destruct (newClient _ _ _) as [[cl|err] w]; rewrite H; clear H.
    + rewrite Hm. simpl. split; [by eexists|].
      exists (evs ++ [EvNewClient {| aws.Credentials := aws.Credentials c;
                                    aws.Region := Some region |} (Ok cl)]).
      split; [by rewrite Htr, app_assoc|].
      intros region'. rewrite built_snoc, Hcount. unfold lookupClient. simpl.
      rewrite Hm. destruct (decide (region = region')) as [<-|Hne].
      * rewrite lookup_insert_eq. unfold lookupClient in Hl. rewrite Hm in Hl.
        rewrite Hl. by rewrite bool_decide_eq_true_2.
      * rewrite lookup_insert_ne by done.
        rewrite bool_decide_eq_false_2 by congruence. lia.
    + simpl. split; [by rewrite Hm|].
      exists (evs ++ [EvNewClient {| aws.Credentials := aws.Credentials c;
                                    aws.Region := Some region |} (Err err)]).
      split; [by rewrite Htr, app_assoc|].
      intros region'. rewrite built_snoc, Hcount. simpl. unfold lookupClient. simpl. lia.
  - intros ev w s' Hev (Hsome & evs & Htr & Hcount). split; [done|].
    exists (evs ++ [ev]). simpl. split; [by rewrite Htr, app_assoc|].
    intros region. rewrite built_snoc, Hcount.
    destruct ev; simpl in *; try done; unfold lookupClient; simpl; lia.
Qed.

(** Since the trace [t1]: the client cached for [region] is still
    there, and the factory has not been called for [region]. *)
Lemma cached_invariant (region : string) (client : awsClient W Ctx)
    (t1 : list (Event W Ctx)) (calls : list (Call Ctx)) (s : ST) :
  let Inv (s : ST) :=
    lookupClient (plugin s) region = Some client ∧
    ∃ evs, trace s = t1 ++ evs ∧ Forall (λ ev, invokes region ev = false) evs in
  quiet calls s = true → Inv s → Inv (run calls s).
Proof.
  intros Inv. apply run_calls_invariant; subst Inv; cbv beta.
  - intros region' s' (Hkeep & evs & Htr & Hev).
    split; [by apply getRegionClient_keeps|].
    destruct (lookupClient (plugin s') region') as [cl|] eqn:Hl.
    { rewrite (getRegionClient_hit _ _ _ Hl). eauto. }
    destruct (conf (plugin s')) as [c|] eqn:Hc.
    2:{ rewrite getRegionClient_not_configured by done. eauto. }
    pose proof (getRegionClient_miss region' s' c Hl Hc) as H. cbv zeta in H.
    destruct (newClient _ _ _) as [r w]. rewrite H. clear H.
    exists (evs ++ [EvNewClient {| aws.Credentials := aws.Credentials c;
                                  aws.Region := Some region' |} r]).
    split.
    + destruct r as [cl|e]; [destruct (clients (plugin s'))|];
        simpl; by rewrite Htr, app_assoc.
    + apply Forall_app. split; [done|]. constructor; [|done]. simpl.
      apply bool_decide_eq_false_2. intros [= ->]. congruence.
  - intros ev w s' Hev (Hkeep & evs & Htr & Hnone). split; [done|].
    exists (evs ++ [ev]). simpl. split; [by rewrite Htr, app_assoc|].
    apply Forall_app. split; [done|]. constructor; [|done]. by destruct ev.
Qed.

(** A miss with a configuration calls the client factory, once, for
    the region asked. *)
Lemma getRegionClient_miss_trace (region : string) (s : ST) (c : aws.Config) :
  lookupClient (plugin s) region = None → conf (plugin s) = Some c →
  ∃ r, trace (snd (getRegionClient region s))
       = trace s ++ [EvNewClient {| aws.Credentials := aws.Credentials c;
                                    aws.Region := Some region |} r].
Proof.
  intros Hl Hc. pose proof (getRegionClient_miss region s c Hl Hc) as H. cbv zeta in H.
  destruct (newClient _ _ _) as [r w]. exists r. rewrite H.
  destruct r as [cl|e]; [|done]. by destruct (clients (plugin s)).
Qed.

(** C8, as the code has it. Once [getRegionClient region] has returned
    a client, and as long as no Configure succeeds, every later
    [getRegionClient region] returns that client and leaves the state,
    trace included, as it was, and the client factory is not called
    for that region again.  A Configure that succeeds leaves an empty
    cache; and from then on, over calls among which no Configure
    succeeds, at most one client is built for each region.  A
    [getRegionClient region] that fails caches nothing for the region:
    when there is a configuration, the next [getRegionClient region]
    calls the client factory for the region once more. *)
Theorem getRegionClient_once_per_epoch :
  (∀ (region : string) (client : awsClient W Ctx) (s s1 : ST) (calls : list (Call Ctx)),
     getRegionClient region s = (Ok client, s1) →
     quiet calls s1 = true →
     getRegionClient region (run calls s1) = (Ok client, run calls s1) ∧
     ∃ evs, trace (run calls s1) = trace s1 ++ evs ∧
            Forall (λ ev, invokes region ev = false) evs) ∧
  (∀ (ctx : Ctx) (req : spi.ConfigureRequest) (s s0 : ST) (resp : spi.ConfigureResponse),
     Configure hcl_Decode ctx req s = (Ok resp, s0) →
     clients (plugin s0) = Some ∅ ∧
     (∀ region, lookupClient (plugin s0) region = None) ∧
     ∀ calls, quiet calls s0 = true →
       ∃ evs, trace (run calls s0) = trace s0 ++ evs ∧
              ∀ region, built region evs ≤ 1) ∧
  (∀ (region : string) (s s' : ST) (e : error),
     getRegionClient region s = (Err e, s') →
     lookupClient (plugin s') region = None ∧
     (is_Some (conf (plugin s)) →
      ∃ c r, aws.Region c = Some region ∧
             trace (snd (getRegionClient region s')) = trace s' ++ [EvNewClient c r])).
Proof.
  split; [|split].
  - intros region client s s1 calls Hget Hq.
    apply getRegionClient_Ok in Hget.
    destruct (cached_invariant region client (trace s1) calls s1 Hq) as [Hl Hev].
    { split; [done|]. exists []. by rewrite app_nil_r. }
    split; [by apply getRegionClient_hit|done].
  - intros ctx req s s0 resp Hconf.
    apply Configure_Ok_clients in Hconf as (Hcl & _ & _ & _ & _).
    assert (Hnone : ∀ region, lookupClient (plugin s0) region = None).
    { intros region. unfold lookupClient. by rewrite Hcl. }
    split; [done|]. split; [done|]. intros calls Hq.
    destruct (built_invariant (trace s0) calls s0 Hq) as (_ & evs & Htr & Hcount).
    { split; [by rewrite Hcl|]. exists []. split; [by rewrite app_nil_r|].
      intros region. by rewrite Hnone. }
    exists evs. split; [done|]. intros region. rewrite Hcount.
    destruct (lookupClient _ region); lia.
  - intros region s s' e Hget.
    destruct (lookupClient (plugin s) region) as [cl|] eqn:Hl.
    { by rewrite (getRegionClient_hit _ _ _ Hl) in Hget. }
    destruct (conf (plugin s)) as [c|] eqn:Hc.
    2:{ rewrite getRegionClient_not_configured in Hget by done.
        injection Hget as <- <-. split; [done|]. by intros [? ?]. }
    assert (Hs' : lookupClient (plugin s') region = None ∧
                  ∃ c', conf (plugin s') = Some c').
    { pose proof (getRegionClient_miss region s c Hl Hc) as H. cbv zeta in H.
      unfold lookupClient in *.
      destruct (newClient _ _ _) as [[cl|err] w]; rewrite H in Hget;
        [destruct (clients (plugin s)) as [m|] eqn:Hm; [done|]|];
        injection Hget as <- <-; simpl; rewrite ?Hm; eauto. }
    destruct Hs' as [Hl' [c' Hc']]. split; [done|]. intros _.
    destruct (getRegionClient_miss_trace region s' c' Hl' Hc') as [r Htr].
    by exists {| aws.Credentials := aws.Credentials c'; aws.Region := Some region |}, r.
Qed.

(** ** Traces *)

Local Abbreviation discipline := (remote_discipline (W := W) (Ctx := Ctx)).

Lemma discipline_nil (err : option error) : discipline [] err.
Proof. repeat split; try done. by intros e ?%elem_of_nil. Qed.

(** Code that went through without error, followed by more code. *)
Lemma discipline_app (evs1 evs2 : list (Event W Ctx)) (err : option error) :
  discipline evs1 None → discipline evs2 err → discipline (evs1 ++ evs2) err.
Proof.
  intros (_ & H1 & _) (Hpre & Hok & Hfail). destruct (H1 eq_refl) as [Heq Hnf].
  unfold remote_discipline. rewrite flat_map_app, !omap_app, Heq, Hnf. simpl.
  split; [by apply prefix_app|]. split; [|done].
  intros ->. destruct (Hok eq_refl) as [-> ?]. done.
Qed.

(** Events that are neither remote calls nor answers to any. *)
Lemma discipline_silent (evs : list (Event W Ctx)) (err : option error) :
  Forall (λ ev, is_remote_call ev = false) evs → discipline evs err.
Proof.
  intros Hs.
  assert (omap profile_request evs = [] ∧ flat_map described_instances evs = [] ∧
          omap remote_failure evs = []) as (H1 & H2 & H3).
  { induction Hs as [|ev evs Hev _ (IH1 & IH2 & IH3)]; [done|].
    destruct ev; try done; simpl; rewrite ?IH1, ?IH2, ?IH3; done. }
  unfold remote_discipline. rewrite H1, H2, H3. apply discipline_nil.
Qed.

Lemma instances_loop_trace (ctx : Ctx) (client : awsClient W Ctx)
    (insts : list ec2.Instance) (selectorSet : gset string) (s s' : ST)
    (r : result (gset string)) :
  forRange (resolveInstance ctx client) insts selectorSet s = (r, s') →
  plugin s' = plugin s ∧
  ∃ evs, trace s' = trace s ++ evs ∧
    flat_map described_instances evs = [] ∧
    omap profile_request evs `prefix_of` omap wanted_profile_request insts ∧
    (error_of r = None →
     omap profile_request evs = omap wanted_profile_request insts ∧
     omap remote_failure evs = []) ∧
    (∀ e, e ∈ omap remote_failure evs → error_of r = Some (iidError_Wrap e)).
Proof.
  revert selectorSet s. induction insts as [|inst insts IH]; intros selectorSet s.
  { intros [= <- <-]. split; [done|]. exists []. rewrite app_nil_r.
    repeat split; try done. by intros e ?%elem_of_nil. }
  rewrite forRange_cons. simpl omap.
  destruct (wanted_profile_request inst) as [input|] eqn:Hw.
  - pose proof (resolveInstance_lookup ctx client selectorSet inst s input Hw) as H.
    destruct (GetInstanceProfileWithContext _ _ _ _) as [[output|e] w]; rewrite H; clear H.
    + intros (Hp & evs & Htr & Hd & Hpre & Hok & Hfail)%IH.
      split; [done|]. exists (EvGetInstanceProfile client input (Ok output) :: evs).
      split; [by rewrite Htr; simpl; rewrite <-app_assoc|]. simpl.
      split; [done|]. split; [by apply prefix_cons|]. split; [|done].
      intros Hr. destruct (Hok Hr) as [Heq ?]. split; [by f_equal|done].
    + intros [= <- <-]. split; [done|].
      exists [EvGetInstanceProfile client input (Err e)]. simpl.
      repeat split; try done.
      * apply prefix_cons, prefix_nil.
      * by intros e' ->%list_elem_of_singleton.
  - rewrite resolveInstance_no_lookup by done. apply IH.
Qed.

Lemma getRegionClient_trace (region : string) (s : ST) :
  ∃ evs, trace (snd (getRegionClient region s)) = trace s ++ evs ∧
         Forall (λ ev, is_remote_call ev = false) evs ∧
         Forall (λ ev, is_warning ev = false) evs.
Proof.
  destruct (lookupClient (plugin s) region) as [cl|] eqn:Hl.
  { rewrite (getRegionClient_hit _ _ _ Hl). exists []. by rewrite app_nil_r. }
  destruct (conf (plugin s)) as [c|] eqn:Hc.
  2:{ rewrite getRegionClient_not_configured by done. exists []. by rewrite app_nil_r. }
  pose proof (getRegionClient_miss region s c Hl Hc) as H. cbv zeta in H.
  destruct (newClient _ _ _) as [r w]. rewrite H.
  exists [EvNewClient {| aws.Credentials := aws.Credentials c;
                         aws.Region := Some region |} r].
  split; [|by split; repeat constructor].
  destruct r as [cl|e]; [|done]. by destruct (clients (plugin s)).
Qed.

Lemma resolveSpiffeID_trace (ctx : Ctx) (spiffeID : string) (s s' : ST)
    (r : result (option common.Selectors)) :
  resolveOne ctx spiffeID s = (r, s') →
  ∃ evs, trace s' = trace s ++ evs ∧ discipline evs (error_of r).
Proof.
  unfold resolveSpiffeID.
  destruct (parse spiffeID) as [[[a region] instanceID]|e].
  2:{ intros [= <- <-]. eexists. split; [done|].
      apply discipline_silent. by repeat constructor. }
  unfold bind at 1.
  destruct (getRegionClient_trace region s) as (evs1 & Htr1 & Hsil & _).
  destruct (getRegionClient region s) as [[client|e] s1]; simpl in Htr1.
  2:{ intros [= <- <-]. exists evs1. split; [done|]. by apply discipline_silent. }
  unfold bind at 1, wrapErr, callDescribeInstances.
  destruct (DescribeInstancesWithContext _ _ _ _) as [[resp|e] w].
  2:{ intros [= <- <-]. eexists (evs1 ++ [_]). simpl.
      split; [by rewrite Htr1, app_assoc|].
      apply discipline_app; [by apply discipline_silent|].
      repeat split; try done. simpl. by intros e' ->%list_elem_of_singleton. }
  unfold bind. rewrite forRange_reservations.
  destruct (forRange _ _ _ _) as [rl s3] eqn:Hloop.
  apply instances_loop_trace in Hloop as (_ & evs3 & Htr3 & Hd & Hpre & Hok & Hfail).
  simpl in Htr3.
  assert (Hdisc : discipline (evs1 ++ EvDescribeInstances client
             {| ec2.InstanceIds := [aws.String_ instanceID];
                ec2.Filters := instanceFilters |} (Ok resp) :: evs3) (error_of rl)).
  { apply discipline_app; [by apply discipline_silent|].
    unfold remote_discipline. simpl. rewrite Hd, app_nil_r. done. }
  destruct rl as [selectorSet|e]; intros [= <- <-]; eexists;
    (split; [|exact Hdisc]); by rewrite Htr3, Htr1, <-!app_assoc.
Qed.

Lemma Resolve_loop_trace (ctx : Ctx) (ids : list string)
    (respMap : gmap string common.Selectors) (s s' : ST)
    (r : result (gmap string common.Selectors)) :
  forRange (entry ctx) ids respMap s = (r, s') →
  ∃ evs, trace s' = trace s ++ evs ∧ discipline evs (error_of r).
Proof.
  revert respMap s. induction ids as [|spiffeID ids IH]; intros respMap s.
  { intros [= <- <-]. exists []. split; [by rewrite app_nil_r|apply discipline_nil]. }
  rewrite forRange_cons. unfold resolveEntry at 1, bind.
  destruct (resolveOne ctx spiffeID s) as [r1 s1] eqn:H1.
  apply resolveSpiffeID_trace in H1 as (evs1 & Htr1 & Hd1).
  destruct r1 as [sel|e].
  - assert (∃ m, (match sel with
                  | Some sel0 => ret (<[spiffeID:=sel0]> respMap)
                  | None => ret respMap
                  end) s1 = (Ok m, s1)) as [m ->] by (destruct sel; by eexists).
    intros (evs2 & Htr2 & Hd2)%IH. exists (evs1 ++ evs2).
    split; [by rewrite Htr2, Htr1, app_assoc|]. by apply discipline_app.
  - intros [= <- <-]. by exists evs1.
Qed.

Lemma Resolve_trace (ctx : Ctx) (req : noderesolver.ResolveRequest) (s s' : ST)
    (r : result noderesolver.ResolveResponse) :
  ResolveAll ctx req s = (r, s') →
  ∃ evs, trace s' = trace s ++ evs ∧ discipline evs (error_of r).
Proof.
  unfold Resolve, bind.
  destruct (forRange _ _ _ _) as [rl sl] eqn:Hloop.
  apply Resolve_loop_trace in Hloop as (evs & Htr & Hd).
  destruct rl as [m|e]; intros [= <- <-]; by exists evs.
Qed.

(** C3. Whenever a remote call made for any identity of a batch, be it
    the instance-description query or the instance-profile lookup,
    comes back with an error, Resolve returns that error, wrapped, and
    no result mapping. *)
Theorem Resolve_remote_error_fatal (ctx : Ctx) (req : noderesolver.ResolveRequest)
    (s s' : ST) (r : result noderesolver.ResolveResponse) :
  ResolveAll ctx req s = (r, s') →
  ∃ evs, trace s' = trace s ++ evs ∧
    (∀ client input e,
       EvDescribeInstances client input (Err e) ∈ evs → r = Err (iidError_Wrap e)) ∧
    (∀ client input e,
       EvGetInstanceProfile client input (Err e) ∈ evs → r = Err (iidError_Wrap e)).
Proof.
  intros (evs & Htr & _ & _ & Hfail)%Resolve_trace. exists evs. split; [done|].
  assert (Hev : ∀ ev e, ev ∈ evs → remote_failure ev = Some e →
                        r = Err (iidError_Wrap e)).
  { intros ev e Hin Hrf. specialize (Hfail e).
    destruct r as [resp|e'].
    - exfalso. assert (None = Some (iidError_Wrap e)); [|done].
      apply Hfail. apply list_elem_of_omap. eauto.
    - f_equal. assert (Some e' = Some (iidError_Wrap e)) as [= ->]; [|done].
      apply Hfail. apply list_elem_of_omap. eauto. }
  split; intros client input e Hin; by eapply Hev.
Qed.

(** C10. For an instance with a profile whose ARN is [arn], the one
    call made is an instance-profile lookup whose request carries
    [arn], as it is, in its InstanceProfileName field.  Over a batch,
    the lookups sent are, in order, one such request per described
    instance that has a profile with an ARN, up to the point where the
    batch left, and all of them when it succeeded. *)
Theorem Resolve_profile_request_by_arn (ctx : Ctx) (req : noderesolver.ResolveRequest)
    (s s' : ST) (r : result noderesolver.ResolveResponse) :
  (∀ instance profile arn,
     ec2.iamInstanceProfile instance = Some profile → ec2.Arn profile = Some arn →
     wanted_profile_request instance = Some {| iam.InstanceProfileName := Some arn |} ∧
     ∀ (client : awsClient W Ctx) selectorSet (s0 : ST), ∃ answer,
       trace (snd (resolveInstance ctx client selectorSet instance s0))
       = trace s0 ++ [ EvGetInstanceProfile client
                         {| iam.InstanceProfileName := Some arn |} answer ]) ∧
  (ResolveAll ctx req s = (r, s') →
   ∃ evs, trace s' = trace s ++ evs ∧
     omap profile_request evs
       `prefix_of` omap wanted_profile_request (flat_map described_instances evs) ∧
     (is_Ok r = true →
      omap profile_request evs
      = omap wanted_profile_request (flat_map described_instances evs))).
Proof.
  split.
  - intros instance profile arn Hp Harn.
    assert (Hw : wanted_profile_request instance
                 = Some {| iam.InstanceProfileName := Some arn |})
      by (unfold wanted_profile_request; by rewrite Hp, Harn).
    split; [done|]. intros client selectorSet s0.
    pose proof (resolveInstance_lookup ctx client selectorSet instance s0 _ Hw) as H.
    destruct (GetInstanceProfileWithContext _ _ _ _) as [answer w].
    exists answer. by rewrite H.
  - intros (evs & Htr & Hpre & Hok & _)%Resolve_trace. exists evs.
    split; [done|]. split; [done|]. intros Hr. apply Hok. by destruct r.
Qed.

(** ** Before any configuration *)

(** The plugin as [NewIIDResolverPlugin] leaves it, hooks apart. *)
Local Abbreviation unconfigured s :=
  (conf (plugin s) = None ∧ clients (plugin s) = None).

Lemma unconfigured_getRegionClient (region : string) (s : ST) :
  unconfigured s →
  getRegionClient region s = (Err (iidError_New "not configured" []), s).
Proof.
  intros [Hc Hm]. apply getRegionClient_not_configured; [done|].
  unfold lookupClient. by rewrite Hm.
Qed.

Lemma unconfigured_run (calls : list (Call Ctx)) (s : ST) :
  quiet calls s = true → unconfigured s → unconfigured (run calls s).
Proof.
  apply (run_calls_invariant (λ s, unconfigured s)).
  - intros region s' Hs'. by rewrite unconfigured_getRegionClient.
  - done.
Qed.

Lemma unconfigured_Resolve_loop (ctx : Ctx) (ids : list string)
    (respMap : gmap string common.Selectors) (s : ST) :
  unconfigured s →
  ∃ s', forRange (entry ctx) ids respMap s
        = (if existsb (λ id, is_Ok (parse id)) ids
           then Err (iidError_New "not configured" []) else Ok respMap, s') ∧
        plugin s' = plugin s ∧ world s' = world s ∧
        ∃ evs, trace s' = trace s ++ evs ∧ Forall (λ ev, is_warning ev = true) evs.
Proof.
  revert s. induction ids as [|spiffeID ids IH]; intros s Hs.
  { exists s. repeat split. exists []. by rewrite app_nil_r. }
  rewrite forRange_cons. unfold resolveEntry at 1, resolveSpiffeID, bind at 1. simpl existsb.
  destruct (parse spiffeID) as [[[a region] instanceID]|e]; simpl is_Ok; cbv iota.
  - unfold bind at 1. rewrite unconfigured_getRegionClient by done.
    exists s. repeat split. exists []. by rewrite app_nil_r.
  - unfold bind, Warnf, ret. simpl orb.
    destruct (IH (emit (EvWarnf "unrecognized Agent ID: %s: %v"
                          [ArgString spiffeID; ArgError e]) s) Hs)
      as (s' & -> & Hp & Hw & evs & Htr & Hev).
    exists s'. repeat split; try done. eexists (_ :: evs).
    split; [by rewrite Htr; simpl; rewrite <-app_assoc|]. by constructor.
Qed.

(** C7. On a plugin fresh from [NewIIDResolverPlugin], after any calls
    among which no Configure succeeded, Resolve of a batch holding a
    well-formed identity fails with "not configured", and all it adds
    to the trace are warnings: no client is built, no instance is
    described, no instance profile is looked up; the world is as it
    was. *)
Theorem Resolve_before_Configure (os_Getenv : string → string)
    (newAWSClient : aws.Config → W → result (awsClient W Ctx) * W)
    (w0 : W) (t0 : list (Event W Ctx)) (calls : list (Call Ctx))
    (ctx : Ctx) (req : noderesolver.ResolveRequest) (spiffeID : string) :
  let s0 := {| plugin := NewIIDResolverPlugin os_Getenv newAWSClient;
               world := w0; trace := t0 |} in
  quiet calls s0 = true →
  spiffeID ∈ noderesolver.BaseSpiffeIdList req →
  is_Ok (parse spiffeID) = true →
  ∃ s', ResolveAll ctx req (run calls s0)
        = (Err (iidError_New "not configured" []), s') ∧
        world s' = world (run calls s0) ∧
        ∃ evs, trace s' = trace (run calls s0) ++ evs ∧
               Forall (λ ev, is_warning ev = true) evs ∧
               Forall (λ ev, is_remote_call ev = false) evs.
Proof.
  intros s0 Hq Hin Hok.
  assert (Hun : unconfigured (run calls s0)) by (by apply unconfigured_run).
  destruct (unconfigured_Resolve_loop ctx (noderesolver.BaseSpiffeIdList req) ∅ _ Hun)
    as (s' & Hloop & _ & Hw & evs & Htr & Hev).
  assert (Hex : existsb (λ id, is_Ok (parse id)) (noderesolver.BaseSpiffeIdList req) = true).
  { apply existsb_exists. exists spiffeID. split; [by apply list_elem_of_In|done]. }
  rewrite Hex in Hloop. exists s'. unfold Resolve, bind. rewrite Hloop.
  split; [done|]. split; [done|]. exists evs. split; [done|]. split; [done|].
  eapply Forall_impl; [exact Hev|]. by intros [] ?.
Qed.

(** ** Instance profiles and roles *)

Lemma elem_of_resolveInstanceProfile (instanceProfile : iam.InstanceProfile) (v : string) :
  v ∈ resolveInstanceProfile instanceProfile ↔
  ∃ role arn, role ∈ iam.Roles instanceProfile ∧ iam.Arn role = Some arn ∧
              v = "iamrole:" +:+ arn.
Proof.
  unfold resolveInstanceProfile.
  induction (iam.Roles instanceProfile) as [|role roles IH]; simpl.
  { split; [by intros ?%elem_of_nil|]. by intros (? & ? & ?%elem_of_nil & _). }
  destruct (iam.Arn role) as [arn|] eqn:Harn; simpl.
  - rewrite elem_of_cons, IH. split.
    + intros [->|(role' & arn' & Hin & Harn' & ->)].
      * exists role, arn. by rewrite elem_of_cons; auto.
      * exists role', arn'. by rewrite elem_of_cons; auto.
    + intros (role' & arn' & [->|Hin]%elem_of_cons & Harn' & ->).
      * left. congruence.
      * right. by exists role', arn'.
  - rewrite IH. split.
    + intros (role' & arn' & Hin & Harn' & ->).
      exists role', arn'. by rewrite elem_of_cons; auto.
    + intros (role' & arn' & [->|Hin]%elem_of_cons & Harn' & ->); [congruence|].
      by exists role', arn'.
Qed.

(** C9, as the code has it. For an instance of the answer: when it has
    an instance profile whose ARN is present (a non-nil pointer, be the
    string empty or not), exactly one instance-profile lookup is made,
    for that ARN, and if it succeeds the values of the returned roles
    are added to those of the tags and security groups; when the
    profile or its ARN is absent, no lookup is made and the state is
    left as it was.  The values of a profile are "iamrole:<arn>" for
    each of its roles whose ARN is present, and nothing else: a role
    whose ARN is absent gives no value. *)
Theorem resolveInstance_profile_lookup (ctx : Ctx) (client : awsClient W Ctx)
    (selectorSet : gset string) (instance : ec2.Instance) (s : ST) :
  (∀ profile arn,
     ec2.iamInstanceProfile instance = Some profile → ec2.Arn profile = Some arn →
     let input := {| iam.InstanceProfileName := Some arn |} in
     let (r, w) := GetInstanceProfileWithContext client ctx input (world s) in
     resolveInstance ctx client selectorSet instance s
     = (match r with
        | Ok output =>
            Ok (addSelectors (with_tags_and_groups selectorSet instance)
                  (resolveInstanceProfile (iam.instanceProfile output)))
        | Err e => Err (iidError_Wrap e)
        end,
        emit (EvGetInstanceProfile client input r) (set_world w s))) ∧
  (ec2.iamInstanceProfile instance = None ∨
   (∃ profile, ec2.iamInstanceProfile instance = Some profile ∧ ec2.Arn profile = None) →
   resolveInstance ctx client selectorSet instance s
   = (Ok (with_tags_and_groups selectorSet instance), s)) ∧
  (∀ instanceProfile v,
     v ∈ resolveInstanceProfile instanceProfile ↔
     ∃ role arn, role ∈ iam.Roles instanceProfile ∧ iam.Arn role = Some arn ∧
                 v = "iamrole:" +:+ arn).
Proof.
  split; [|split].
  - intros profile arn Hp Harn input.
    apply (resolveInstance_lookup ctx client selectorSet instance s input).
    unfold wanted_profile_request. by rewrite Hp, Harn.
  - intros Hnone. apply resolveInstance_no_lookup. unfold wanted_profile_request.
    destruct Hnone as [->|(profile & -> & ->)]; done.
  - apply elem_of_resolveInstanceProfile.
Qed.

(** ** Warnings do not matter

    Nothing reads the trace: from two states that differ in their
    warnings only, every piece of the resolver returns the same result
    and ends in two such states again. *)

Local Abbreviation same := (same_but_warnings (W := W) (Ctx := Ctx)).
Local Abbreviation respects m :=
  (∀ s1 s2 : ST, same s1 s2 →
     fst (m s1) = fst (m s2) ∧ same (snd (m s1)) (snd (m s2))).

Lemma same_refl (s : ST) : same s s.
Proof. done. Qed.

Lemma same_event (ev : Event W Ctx) (w : W) (s1 s2 : ST) :
  is_warning ev = false → same s1 s2 →
  same (emit ev (set_world w s1)) (emit ev (set_world w s2)).
Proof.
  intros Hev (Hp & Hw & Ht). repeat split; simpl; [done|].
  by rewrite !List.filter_app, Ht.
Qed.

Lemma same_warning (ev : Event W Ctx) (s1 s2 : ST) :
  is_warning ev = true → same s1 s2 → same (emit ev s1) s2.
Proof.
  intros Hev (Hp & Hw & Ht). repeat split; simpl; [done..|].
  rewrite List.filter_app. simpl. rewrite Hev. simpl. by rewrite app_nil_r.
Qed.

Lemma same_set_plugin (p : IIDResolverPlugin W Ctx) (s1 s2 : ST) :
  same s1 s2 → same (set_plugin p s1) (set_plugin p s2).
Proof. by intros (Hp & Hw & Ht). Qed.

Lemma respects_ret {A} (a : A) : respects (ret a).
Proof. done. Qed.

Lemma respects_bind {A B} (m : Mon A) (f : A → Mon B) :
  respects m → (∀ a, respects (f a)) → respects (bind m f).
Proof.
  intros Hm Hf s1 s2 Hs. unfold bind. destruct (Hm s1 s2 Hs) as [Hr Hs'].
  destruct (m s1) as [r1 s1'], (m s2) as [r2 s2']. simpl in *. subst r2.
  destruct r1 as [a|e]; [by apply Hf|done].
Qed.

Lemma respects_wrapErr {A} (m : Mon A) : respects m → respects (wrapErr m).
Proof.
  intros Hm s1 s2 Hs. unfold wrapErr. destruct (Hm s1 s2 Hs) as [Hr Hs'].
  destruct (m s1) as [r1 s1'], (m s2) as [r2 s2']. simpl in *. subst r2.
  by destruct r1.
Qed.

Lemma respects_forRange {A B} (f : B → A → Mon B) :
  (∀ b x, respects (f b x)) → ∀ l b, respects (forRange f l b).
Proof.
  intros Hf l. induction l as [|x l IH]; intros b; [done|].
  apply (respects_bind (f b x)); [apply Hf|]. intros b'. apply IH.
Qed.

Lemma respects_callDescribeInstances (client : awsClient W Ctx) (ctx : Ctx)
    (input : ec2.DescribeInstancesInput) :
  respects (callDescribeInstances client ctx input).
Proof.
  intros s1 s2 Hs. unfold callDescribeInstances.
  destruct Hs as (Hp & Hw & Ht). rewrite Hw.
  destruct (DescribeInstancesWithContext _ _ _ _) as [r w]. simpl.
  split; [done|]. by apply same_event.
Qed.

Lemma respects_callGetInstanceProfile (client : awsClient W Ctx) (ctx : Ctx)
    (input : iam.GetInstanceProfileInput) :
  respects (callGetInstanceProfile client ctx input).
Proof.
  intros s1 s2 Hs. unfold callGetInstanceProfile.
  destruct Hs as (Hp & Hw & Ht). rewrite Hw.
  destruct (GetInstanceProfileWithContext _ _ _ _) as [r w]. simpl.
  split; [done|]. by apply same_event.
Qed.

Lemma respects_getRegionClient (region : string) : respects (getRegionClient region).
Proof.
  intros s1 s2 Hs. pose proof Hs as (Hp & Hw & Ht).
  destruct (lookupClient (plugin s1) region) as [cl|] eqn:Hl.
  { rewrite !(getRegionClient_hit _ cl); [done|by rewrite <-Hp|done]. }
  destruct (conf (plugin s1)) as [c|] eqn:Hc.
  2:{ rewrite !getRegionClient_not_configured; [done|by rewrite <-Hp..|done|done]. }
  pose proof (getRegionClient_miss region s1 c Hl Hc) as H1.
  rewrite Hp in Hl, Hc.
  pose proof (getRegionClient_miss region s2 c Hl Hc) as H2.
  cbv zeta in H1, H2. rewrite <-Hp, <-Hw in H2.
  destruct (newClient _ _ _) as [r w]. rewrite H1, H2.
  assert (Hemit : same
    (emit (EvNewClient {| aws.Credentials := aws.Credentials c;
                          aws.Region := Some region |} r)
       (set_world w (set_plugin {| conf := Some {| aws.Credentials := aws.Credentials c;
                                                   aws.Region := Some region |};
                                   clients := clients (plugin s1);
                                   hooks := hooks (plugin s1) |} s1)))
    (emit (EvNewClient {| aws.Credentials := aws.Credentials c;
                          aws.Region := Some region |} r)
       (set_world w (set_plugin {| conf := Some {| aws.Credentials := aws.Credentials c;
                                                   aws.Region := Some region |};
                                   clients := clients (plugin s1);
                                   hooks := hooks (plugin s1) |} s2)))).
  { apply same_event; [done|]. by apply same_set_plugin. }
  destruct r as [cl|e]; [|done].
  destruct (clients (plugin s1)) as [m|]; [|done].
  split; [done|]. by apply same_set_plugin.
Qed.

Lemma respects_resolveInstance (ctx : Ctx) (client : awsClient W Ctx)
    (selectorSet : gset string) (instance : ec2.Instance) :
  respects (resolveInstance ctx client selectorSet instance).
Proof.
  unfold resolveInstance.
  destruct (ec2.iamInstanceProfile instance) as [profile|]; [|apply respects_ret].
  destruct (ec2.Arn profile) as [arn|]; [|apply respects_ret].
  apply respects_bind; [|intros output; apply respects_ret].
  apply respects_wrapErr, respects_callGetInstanceProfile.
Qed.

Lemma respects_resolveSpiffeID (ctx : Ctx) (spiffeID : string) :
  respects (resolveOne ctx spiffeID).
Proof.
  unfold resolveSpiffeID.
  destruct (parse spiffeID) as [[[a region] instanceID]|e].
  - apply respects_bind; [apply respects_getRegionClient|]. intros client.
    apply respects_bind; [apply respects_wrapErr, respects_callDescribeInstances|].
    intros resp. apply respects_bind; [|intros ?; apply respects_ret].
    apply respects_forRange. intros b reservation.
    apply respects_forRange. intros b' instance. apply respects_resolveInstance.
  - apply respects_bind; [|intros ?; apply respects_ret].
    intros s1 s2 Hs. unfold Warnf. simpl. split; [done|].
    destruct Hs as (Hp & Hw & Ht). repeat split; simpl; [done..|].
    by rewrite !List.filter_app, Ht.
Qed.

Lemma respects_resolveEntry (ctx : Ctx) (respMap : gmap string common.Selectors)
    (spiffeID : string) :
  respects (entry ctx respMap spiffeID).
Proof.
  unfold resolveEntry. apply respects_bind; [apply respects_resolveSpiffeID|].
  intros [sel|]; apply respects_ret.
Qed.

(** ** The result mapping of a batch *)

Lemma resolveSpiffeID_malformed (ctx : Ctx) (spiffeID : string) (e : error) (s : ST) :
  parse spiffeID = Err e →
  resolveOne ctx spiffeID s
  = (Ok None, emit (EvWarnf "unrecognized Agent ID: %s: %v"
                      [ArgString spiffeID; ArgError e]) s).
Proof. intros Hp. unfold resolveSpiffeID. by rewrite Hp. Qed.

(** Selectors come back non-nil exactly for the identities that parse. *)
Lemma resolveSpiffeID_Some (ctx : Ctx) (spiffeID : string) (s s' : ST)
    (selectors : option common.Selectors) :
  resolveOne ctx spiffeID s = (Ok selectors, s') →
  (is_Some selectors ↔ is_Ok (parse spiffeID) = true).
Proof.
  unfold resolveSpiffeID.
  destruct (parse spiffeID) as [[[a region] instanceID]|e]; simpl.
  - unfold bind at 1. destruct (getRegionClient region s) as [[client|e] s1]; [|done].
    unfold bind at 1. destruct (wrapErr _ s1) as [[resp|e] s2]; [|done].
    unfold bind, ret. destruct (forRange _ _ _ _) as [[selectorSet|e] s3]; [|done].
    intros [= <- <-]. split; [done|]. by eexists.
  - intros [= <- <-]. split; [by intros [? ?]|done].
Qed.

Lemma resolveEntry_Ok (ctx : Ctx) (respMap respMap' : gmap string common.Selectors)
    (spiffeID : string) (s s' : ST) :
  entry ctx respMap spiffeID s = (Ok respMap', s') →
  ∃ selectors, resolveOne ctx spiffeID s = (Ok selectors, s') ∧
    respMap' = match selectors with
               | Some sel => <[spiffeID := sel]> respMap
               | None => respMap
               end.
Proof.
  unfold resolveEntry, bind.
  destruct (resolveOne ctx spiffeID s) as [[selectors|e] s1]; [|done].
  destruct selectors as [sel|]; intros [= <- <-]; by eexists.
Qed.

Lemma Resolve_loop_keys (ctx : Ctx) (ids : list string)
    (respMap respMap' : gmap string common.Selectors) (s s' : ST) :
  forRange (entry ctx) ids respMap s = (Ok respMap', s') →
  ∀ k, is_Some (respMap' !! k) ↔
       is_Some (respMap !! k) ∨ (k ∈ ids ∧ is_Ok (parse k) = true).
Proof.
  revert respMap s. induction ids as [|spiffeID ids IH]; intros respMap s.
  { intros [= <- <-] k. split; [auto|]. by intros [?|[?%elem_of_nil _]]. }
  rewrite forRange_cons.
  destruct (entry ctx respMap spiffeID s) as [[m1|e] s1] eqn:H1; [|done].
  apply resolveEntry_Ok in H1 as (selectors & H1 & ->).
  apply resolveSpiffeID_Some in H1.
  intros Hloop k. rewrite (IH _ _ Hloop k), elem_of_cons.
  destruct selectors as [sel|].
  - rewrite lookup_insert. case_decide as Hk.
    + subst k. assert (is_Ok (parse spiffeID) = true) by (apply H1; by eexists).
      split; [|by intros _; left; eexists]. intros _. right. auto.
    + split; [|intros [?|[[?|?] ?]]; auto; congruence].
      intros [?|[? ?]]; auto.
  - assert (is_Ok (parse spiffeID) ≠ true) as Hbad
      by (intros Hp; apply H1 in Hp as [? ?]; done).
    split; [intros [?|[? ?]]; auto|].
    intros [?|[[->|?] ?]]; auto. done.
Qed.

Lemma Resolve_loop_other (ctx : Ctx) (ids : list string)
    (respMap respMap' : gmap string common.Selectors) (s s' : ST) (k : string) :
  forRange (entry ctx) ids respMap s = (Ok respMap', s') →
  k ∉ ids → respMap' !! k = respMap !! k.
Proof.
  revert respMap s. induction ids as [|spiffeID ids IH]; intros respMap s.
  { by intros [= <- <-]. }
  rewrite forRange_cons.
  destruct (entry ctx respMap spiffeID s) as [[m1|e] s1] eqn:H1; [|done].
  apply resolveEntry_Ok in H1 as (selectors & H1 & ->).
  intros Hloop [Hne Hk]%not_elem_of_cons. rewrite (IH _ _ Hloop Hk).
  destruct selectors; [by rewrite lookup_insert_ne|done].
Qed.

Lemma Resolve_loop_skip (ctx : Ctx) (ids : list string)
    (respMap : gmap string common.Selectors) (s1 s2 : ST) :
  same s1 s2 →
  fst (forRange (entry ctx) ids respMap s1)
  = fst (forRange (entry ctx) (List.filter (λ id, is_Ok (parse id)) ids) respMap s2) ∧
  same (snd (forRange (entry ctx) ids respMap s1))
       (snd (forRange (entry ctx) (List.filter (λ id, is_Ok (parse id)) ids) respMap s2)).
Proof.
  revert respMap s1 s2. induction ids as [|spiffeID ids IH]; intros respMap s1 s2 Hs.
  { done. }
  simpl List.filter. destruct (parse spiffeID) as [x|e] eqn:Hp; simpl is_Ok; cbv iota.
  - rewrite !forRange_cons.
    destruct (respects_resolveEntry ctx respMap spiffeID s1 s2 Hs) as [Hr Hs'].
    destruct (entry ctx respMap spiffeID s1) as [r1 s1'],
             (entry ctx respMap spiffeID s2) as [r2 s2']. simpl in *. subst r2.
    destruct r1 as [m1|e1]; [by apply IH|done].
  - assert (Hskip : forRange (entry ctx) (spiffeID :: ids) respMap s1
                     = forRange (entry ctx) ids respMap
                         (emit (EvWarnf "unrecognized Agent ID: %s: %v"
                                  [ArgString spiffeID; ArgError e]) s1)).
    { rewrite forRange_cons. unfold resolveEntry at 1, bind.
      by rewrite (resolveSpiffeID_malformed ctx spiffeID e s1 Hp). }
    rewrite Hskip. apply IH. by apply same_warning.
Qed.

(** C2. A malformed identity costs a warning and nothing else: its
    resolution returns no error and no selectors, the batch goes on
    with the identities after it, and it has no entry in the result
    mapping.  The batch returns what it returns without its malformed
    identities, and leaves the plugin, the world and the calls made as
    that batch does: the malformed identities keep no other identity
    from resolving. *)
Theorem Resolve_skips_malformed (ctx : Ctx) (ids : list string) (s : ST) :
  let good := List.filter (λ id, is_Ok (parse id)) ids in
  (∀ bad e rest, parse bad = Err e →
     let warned := emit (EvWarnf "unrecognized Agent ID: %s: %v"
                           [ArgString bad; ArgError e]) s in
     resolveOne ctx bad s = (Ok None, warned) ∧
     ResolveAll ctx {| noderesolver.BaseSpiffeIdList := bad :: rest |} s
     = ResolveAll ctx {| noderesolver.BaseSpiffeIdList := rest |} warned) ∧
  fst (ResolveAll ctx {| noderesolver.BaseSpiffeIdList := ids |} s)
  = fst (ResolveAll ctx {| noderesolver.BaseSpiffeIdList := good |} s) ∧
  same (snd (ResolveAll ctx {| noderesolver.BaseSpiffeIdList := ids |} s))
       (snd (ResolveAll ctx {| noderesolver.BaseSpiffeIdList := good |} s)) ∧
  (∀ resp s' bad,
     ResolveAll ctx {| noderesolver.BaseSpiffeIdList := ids |} s = (Ok resp, s') →
     is_Ok (parse bad) = false → noderesolver.Map resp !! bad = None).
Proof.
  intros good. split; [|split; [|split]].
  - intros bad e rest Hp warned. split; [by apply resolveSpiffeID_malformed|].
    unfold Resolve, bind. cbn [noderesolver.BaseSpiffeIdList]. rewrite forRange_cons.
    unfold resolveEntry at 1, bind.
    by rewrite (resolveSpiffeID_malformed ctx bad e s Hp).
  - unfold Resolve, bind. simpl.
    destruct (Resolve_loop_skip ctx ids ∅ s s (same_refl s)) as [Hr _].
    fold good in Hr.
    destruct (forRange (entry ctx) ids ∅ s) as [r1 s1],
             (forRange (entry ctx) good ∅ s) as [r2 s2]. simpl in Hr. subst r2.
    by destruct r1.
  - unfold Resolve, bind. simpl.
    destruct (Resolve_loop_skip ctx ids ∅ s s (same_refl s)) as [Hr Hs].
    fold good in Hr, Hs.
    destruct (forRange (entry ctx) ids ∅ s) as [r1 s1],
             (forRange (entry ctx) good ∅ s) as [r2 s2]. simpl in Hr, Hs. subst r2.
    by destruct r1.
  - intros resp s' bad. unfold Resolve, bind. simpl.
    destruct (forRange (entry ctx) ids ∅ s) as [[m|e] s1] eqn:Hloop; [|done].
    intros [= <- <-] Hbad. simpl. apply eq_None_not_Some.
    rewrite (Resolve_loop_keys _ _ _ _ _ _ Hloop bad), lookup_empty.
    intros [[? ?]|[_ ?]]; congruence.
Qed.

(** ** What resolveSpiffeID returns is a normalization *)

Lemma instances_loop_adds (ctx : Ctx) (client : awsClient W Ctx)
    (insts : list ec2.Instance) (selectorSet selectorSet' : gset string) (s s' : ST) :
  forRange (resolveInstance ctx client) insts selectorSet s = (Ok selectorSet', s') →
  ∃ values, selectorSet' = addSelectors selectorSet values.
Proof.
  revert selectorSet s. induction insts as [|inst insts IH]; intros selectorSet s.
  { intros [= <- <-]. by exists []. }
  rewrite forRange_cons.
  destruct (wanted_profile_request inst) as [input|] eqn:Hw.
  - pose proof (resolveInstance_lookup ctx client selectorSet inst s input Hw) as H.
    destruct (GetInstanceProfileWithContext _ _ _ _) as [[output|e] w];
      rewrite H; clear H; [|done].
    intros (values & ->)%IH. rewrite !addSelectors_app. by eexists.
  - rewrite resolveInstance_no_lookup by done.
    intros (values & ->)%IH. rewrite !addSelectors_app. by eexists.
Qed.

(** The selectors of an identity are the normalization of the values
    gathered from its instances. *)
Lemma resolveSpiffeID_normalizes (ctx : Ctx) (spiffeID : string) (s s' : ST)
    (selectors : common.Selectors) :
  resolveOne ctx spiffeID s = (Ok (Some selectors), s') →
  ∃ values, selectors = normalize values.
Proof.
  unfold resolveSpiffeID.
  destruct (parse spiffeID) as [[[a region] instanceID]|e]; [|done].
  unfold bind at 1. destruct (getRegionClient region s) as [[client|e] s1]; [|done].
  unfold bind at 1. destruct (wrapErr _ s1) as [[resp|e] s2]; [|done].
  unfold bind, ret. rewrite forRange_reservations.
  destruct (forRange _ _ _ _) as [[selectorSet|e] s3] eqn:Hloop; [|done].
  apply instances_loop_adds in Hloop as (values & ->).
  intros [= <- <-]. by exists values.
Qed.

(** ** An answer without instances *)

Lemma makeSelectors_empty : makeSelectors ∅ = {| common.Entries := [] |}.
Proof. unfold makeSelectors. by rewrite elements_empty. Qed.

Lemma Resolve_loop_Ok (ctx : Ctx) (req : noderesolver.ResolveRequest) (s s' : ST)
    (resp : noderesolver.ResolveResponse) :
  ResolveAll ctx req s = (Ok resp, s') ↔
  forRange (entry ctx) (noderesolver.BaseSpiffeIdList req) ∅ s
  = (Ok (noderesolver.Map resp), s').
Proof.
  unfold Resolve, bind, ret.
  destruct (forRange _ _ _ _) as [[m|e] s1]; [|split; congruence].
  destruct resp as [m']. simpl. split; congruence.
Qed.

(** C1, as the code has it. An identity that parses, and for which the
    instance-description query succeeds without a single instance,
    resolves to selectors that are present and empty; Resolve puts them
    in the result mapping: a batch ending with such an identity
    succeeds with an entry for it that holds no selector, and so does
    every batch that succeeds and does not name the identity again
    later on. *)
Theorem Resolve_no_instances_empty_entry (ctx : Ctx) (pre : list string)
    (spiffeID accountID region instanceID : string) (s0 s1 s2 : ST)
    (resp1 : noderesolver.ResolveResponse) (client : awsClient W Ctx)
    (resp : ec2.DescribeInstancesOutput) (w3 : W) :
  let input := {| ec2.InstanceIds := [aws.String_ instanceID];
                  ec2.Filters := instanceFilters |} in
  let s3 := emit (EvDescribeInstances client input (Ok resp)) (set_world w3 s2) in
  let none := {| common.Entries := [] |} in
  ResolveAll ctx {| noderesolver.BaseSpiffeIdList := pre |} s0 = (Ok resp1, s1) →
  parse spiffeID = Ok (accountID, region, instanceID) →
  getRegionClient region s1 = (Ok client, s2) →
  DescribeInstancesWithContext client ctx input (world s2) = (Ok resp, w3) →
  all_instances resp = [] →
  resolveOne ctx spiffeID s1 = (Ok (Some none), s3) ∧
  ResolveAll ctx {| noderesolver.BaseSpiffeIdList := pre ++ [spiffeID] |} s0
  = (Ok {| noderesolver.Map := <[spiffeID := none]> (noderesolver.Map resp1) |}, s3) ∧
  (∀ post resp' s',
     spiffeID ∉ post →
     ResolveAll ctx {| noderesolver.BaseSpiffeIdList := pre ++ spiffeID :: post |} s0
     = (Ok resp', s') →
     noderesolver.Map resp' !! spiffeID = Some none).
Proof.
  intros input s3 none Hpre Hparse Hclient Hdesc Hzero.
  apply Resolve_loop_Ok in Hpre. cbn [noderesolver.BaseSpiffeIdList] in Hpre.
  assert (Hone : resolveOne ctx spiffeID s1 = (Ok (Some none), s3)).
  { unfold resolveSpiffeID. rewrite Hparse. unfold bind at 1. rewrite Hclient.
    unfold bind at 1, wrapErr, callDescribeInstances. fold input. rewrite Hdesc.
    unfold bind. rewrite forRange_reservations. fold (all_instances resp).
    rewrite Hzero. simpl. unfold ret. by rewrite makeSelectors_empty. }
  assert (Hentry : entry ctx (noderesolver.Map resp1) spiffeID s1
                   = (Ok (<[spiffeID := none]> (noderesolver.Map resp1)), s3)).
  { unfold resolveEntry, bind. by rewrite Hone. }
  split; [done|]. split.
  - apply Resolve_loop_Ok. cbn [noderesolver.BaseSpiffeIdList noderesolver.Map].
    rewrite forRange_app, Hpre, forRange_cons, Hentry. done.
  - intros post resp' s' Hpost Hall. apply Resolve_loop_Ok in Hall.
    cbn [noderesolver.BaseSpiffeIdList] in Hall.
    rewrite forRange_app, Hpre, forRange_cons, Hentry in Hall.
    rewrite (Resolve_loop_other _ _ _ _ _ _ _ Hall Hpost).
    by rewrite lookup_insert_eq.
Qed.

(** * Further properties *)

(** ** Configure: failures, precedence, reset *)

Local Abbreviation keyID s config :=
  (orEnv (hooks (plugin s)) (AccessKeyID config) "AWS_ACCESS_KEY_ID").
Local Abbreviation secret s config :=
  (orEnv (hooks (plugin s)) (SecretAccessKey config) "AWS_SECRET_ACCESS_KEY").

Lemma Configure_decoded (ctx : Ctx) (req : spi.ConfigureRequest)
    (config : IIDResolverConfig) (s : ST) :
  hcl_Decode (spi.Configuration req) = Ok config →
  Configure hcl_Decode ctx req s
  = if String.eqb (keyID s config) ""
    then (Err (iidError_New
                 (if String.eqb (secret s config) ""
                  then "configuration missing both access key id and secret access key"
                  else "configuration missing access key id") []), s)
    else if String.eqb (secret s config) ""
         then (Err (iidError_New "configuration missing secret access key" []), s)
         else (Ok spi.mkConfigureResponse,
               set_plugin
                 {| conf := Some {| aws.Credentials :=
                                      Some (credentials.NewStaticCredentials
                                              (keyID s config) (secret s config) "");
                                    aws.Region := None |};
                    clients := Some ∅;
                    hooks := hooks (plugin s) |} s).
Proof using Type.
  intros Hdec. unfold Configure. rewrite Hdec. cbv zeta.
  fold (orEnv (hooks (plugin s)) (AccessKeyID config) "AWS_ACCESS_KEY_ID").
  fold (orEnv (hooks (plugin s)) (SecretAccessKey config) "AWS_SECRET_ACCESS_KEY").
  destruct (String.eqb (keyID s config) ""), (String.eqb (secret s config) ""); done.
Qed.

(** Configure fails exactly when the configuration does not decode or
    a credential is still empty after the environment defaults; the
    error is then of the resolver's class and the plugin, the world
    and the trace are as they were.  With nothing decoded the error
    carries the decoder's; with both credentials empty it names
    both. *)
Theorem Configure_failure (ctx : Ctx) (req : spi.ConfigureRequest) (s : ST) :
  (is_Ok (fst (Configure hcl_Decode ctx req s)) = false ↔
   (∃ err, hcl_Decode (spi.Configuration req) = Err err) ∨
   (∃ config, hcl_Decode (spi.Configuration req) = Ok config ∧
              (keyID s config = "" ∨ secret s config = ""))) ∧
  (∀ e s', Configure hcl_Decode ctx req s = (Err e, s') →
           s' = s ∧ is_iidError e = true) ∧
  (∀ err, hcl_Decode (spi.Configuration req) = Err err →
          fst (Configure hcl_Decode ctx req s)
          = Err (iidError_New "unable to decode configuration: %v" [ArgError err])) ∧
  (∀ config, hcl_Decode (spi.Configuration req) = Ok config →
             keyID s config = "" → secret s config = "" →
             fst (Configure hcl_Decode ctx req s)
             = Err (iidError_New
                      "configuration missing both access key id and secret access key" [])).
Proof using Type.
  split; [|split; [|split]].
  - destruct (hcl_Decode (spi.Configuration req)) as [config|err] eqn:Hdec.
    + rewrite (Configure_decoded ctx req config s Hdec).
      destruct (String.eqb_spec (keyID s config) "") as [Hk|Hk],
               (String.eqb_spec (secret s config) "") as [Hs|Hs]; simpl.
      * split; [intros _; right; exists config; by auto|done].
      * split; [intros _; right; exists config; by auto|done].
      * split; [intros _; right; exists config; by auto|done].
      * split; [done|].
        intros [[err [=]]|(config' & [= <-] & [?|?])]; done.
    + unfold Configure. rewrite Hdec. simpl. split; [|done]. intros _. left. by exists err.
  - intros e s' Hconf. split; [by eapply Configure_Err_state|].
    destruct (hcl_Decode (spi.Configuration req)) as [config|err] eqn:Hdec.
    + rewrite (Configure_decoded ctx req config s Hdec) in Hconf.
      repeat case_match; by simplify_eq.
    + unfold Configure in Hconf. rewrite Hdec in Hconf. by simplify_eq.
  - intros err Hdec. unfold Configure. by rewrite Hdec.
  - intros config Hdec Hk Hs. rewrite (Configure_decoded ctx req config s Hdec).
    by rewrite Hk, Hs.
Qed.

Lemma orEnv_set (h : Hooks W Ctx) (field name : string) :
  field ≠ "" → orEnv h field name = field.
Proof using Type. intros H. unfold orEnv. by rewrite (eqb_empty_false _ H). Qed.

(** What the configuration sets wins over the environment: when both
    fields are set, the credentials installed are those two fields,
    whatever the environment holds, and the environment is not asked. *)
Theorem Configure_explicit_credentials (ctx : Ctx) (req : spi.ConfigureRequest)
    (config : IIDResolverConfig) (s : ST) :
  hcl_Decode (spi.Configuration req) = Ok config →
  AccessKeyID config ≠ "" → SecretAccessKey config ≠ "" →
  Configure hcl_Decode ctx req s
  = (Ok spi.mkConfigureResponse,
     set_plugin
       {| conf := Some {| aws.Credentials :=
                            Some (credentials.NewStaticCredentials
                                    (AccessKeyID config) (SecretAccessKey config) "");
                          aws.Region := None |};
          clients := Some ∅;
          hooks := hooks (plugin s) |} s).
Proof using Type.
  intros Hdec Hk Hs. rewrite (Configure_decoded ctx req config s Hdec).
  rewrite !orEnv_set by done. by rewrite !eqb_empty_false.
Qed.

(** What Configure returns, success or error, depends on the request
    and the hooks only.  When it succeeds it starts afresh: the plugin
    it leaves depends on the request and the hooks only, not on the
    configuration, the region or the clients that were there before.
    When it fails, each state is left as it was. *)
Theorem Configure_forgets (ctx : Ctx) (req : spi.ConfigureRequest) (s1 s2 : ST) :
  hooks (plugin s1) = hooks (plugin s2) →
  fst (Configure hcl_Decode ctx req s1) = fst (Configure hcl_Decode ctx req s2) ∧
  (is_Ok (fst (Configure hcl_Decode ctx req s1)) = true →
   plugin (snd (Configure hcl_Decode ctx req s1))
   = plugin (snd (Configure hcl_Decode ctx req s2))) ∧
  (is_Ok (fst (Configure hcl_Decode ctx req s1)) = false →
   snd (Configure hcl_Decode ctx req s1) = s1 ∧
   snd (Configure hcl_Decode ctx req s2) = s2).
Proof using Type.
  intros Hh. destruct (hcl_Decode (spi.Configuration req)) as [config|err] eqn:Hdec.
  - rewrite !(Configure_decoded ctx req config _ Hdec), Hh.
    repeat case_match; done.
  - unfold Configure. by rewrite Hdec.
Qed.

(** ** The plugin over every sequence of calls *)

(** An invariant of [getRegionClient], of logging and of [Configure]
    survives every sequence of calls. *)
Lemma run_calls_invariant_all (P : ST → Prop) :
  (∀ region s, P s → P (snd (getRegionClient region s))) →
  (∀ ev w s, is_warning ev || is_remote_call ev = true → P s →
             P (emit ev (set_world w s))) →
  (∀ ctx req s, P s → P (snd (Configure hcl_Decode ctx req s))) →
  ∀ calls s, P s → P (run calls s).
Proof using Type.
  intros Hclient Hevent Hconf calls.
  induction calls as [|c calls IH]; intros s Hs; [done|].
  rewrite run_calls_cons. apply IH. destruct c as [ctx req|ctx req|region]; simpl.
  - by apply Hconf.
  - by apply Resolve_invariant.
  - by apply Hclient.
Qed.

Lemma getRegionClient_hooks (region : string) (s : ST) :
  hooks (plugin (snd (getRegionClient region s))) = hooks (plugin s).
Proof using Type.
  destruct (lookupClient (plugin s) region) as [cl|] eqn:Hl.
  { by rewrite (getRegionClient_hit _ _ _ Hl). }
  destruct (conf (plugin s)) as [c|] eqn:Hc.
  2:{ by rewrite getRegionClient_not_configured. }
  pose proof (getRegionClient_miss region s c Hl Hc) as H. cbv zeta in H.
  destruct (newClient _ _ _) as [[cl|err] w]; rewrite H; [|done].
  by destruct (clients (plugin s)).
Qed.

Lemma getRegionClient_cache_ready (region : string) (s : ST) :
  cache_ready (plugin s) → cache_ready (plugin (snd (getRegionClient region s))).
Proof using Type.
  intros Hr.
  destruct (lookupClient (plugin s) region) as [cl|] eqn:Hl.
  { by rewrite (getRegionClient_hit _ _ _ Hl). }
  destruct (conf (plugin s)) as [c|] eqn:Hc.
  2:{ by rewrite getRegionClient_not_configured. }
  pose proof (getRegionClient_miss region s c Hl Hc) as H. cbv zeta in H.
  destruct (Hr ltac:(by rewrite Hc)) as [m Hm].
  destruct (newClient _ _ _) as [[cl|err] w]; rewrite H, ?Hm; simpl;
    intros _; unfold cache_ready; simpl; rewrite ?Hm; by eexists.
Qed.

Lemma Configure_cache_ready (ctx : Ctx) (req : spi.ConfigureRequest) (s : ST) :
  cache_ready (plugin s) → cache_ready (plugin (snd (Configure hcl_Decode ctx req s))).
Proof using Type.
  intros Hr. destruct (Configure hcl_Decode ctx req s) as [[resp|e] s'] eqn:Hconf.
  - apply Configure_Ok_clients in Hconf as (Hcl & _). simpl. intros _. by rewrite Hcl.
  - apply Configure_Err_state in Hconf as ->. done.
Qed.

Lemma Configure_hooks (ctx : Ctx) (req : spi.ConfigureRequest) (s : ST) :
  hooks (plugin (snd (Configure hcl_Decode ctx req s))) = hooks (plugin s).
Proof using Type.
  destruct (Configure hcl_Decode ctx req s) as [[resp|e] s'] eqn:Hconf.
  - by apply Configure_Ok_clients in Hconf as (_ & _ & Hh & _).
  - by apply Configure_Err_state in Hconf as ->.
Qed.

(** The plugin as its methods keep it: the hooks it was made with, and
    a client map whenever there is a configuration. *)
Lemma run_calls_sound (h : Hooks W Ctx) (calls : list (Call Ctx)) (s : ST) :
  hooks (plugin s) = h ∧ cache_ready (plugin s) →
  hooks (plugin (run calls s)) = h ∧ cache_ready (plugin (run calls s)).
Proof using Type.
  apply (run_calls_invariant_all (λ s, hooks (plugin s) = h ∧ cache_ready (plugin s))).
  - intros region s' [Hh Hr]. split; [by rewrite getRegionClient_hooks|].
    by apply getRegionClient_cache_ready.
  - done.
  - intros ctx req s' [Hh Hr]. split; [by rewrite Configure_hooks|].
    by apply Configure_cache_ready.
Qed.

(** On a plugin made by [NewIIDResolverPlugin] and used through its
    methods, in any order and with or without success,
    [getRegionClient] fails in two ways only: without a configuration,
    with "not configured" and nothing changed; or with the error of
    the client factory, called for the asked region, as the factory
    gave it, and then nothing is cached.  The write to the client map
    never meets a nil map. *)
Theorem getRegionClient_failure (os_Getenv : string → string)
    (newAWSClient : aws.Config → W → result (awsClient W Ctx) * W)
    (w0 : W) (t0 : list (Event W Ctx)) (calls : list (Call Ctx))
    (region : string) (e : error) (s' : ST) :
  let s := run calls {| plugin := NewIIDResolverPlugin os_Getenv newAWSClient;
                        world := w0; trace := t0 |} in
  getRegionClient region s = (Err e, s') →
  (conf (plugin s) = None ∧ e = iidError_New "not configured" [] ∧ s' = s) ∨
  (∃ c w, conf (plugin s) = Some c ∧
          newAWSClient {| aws.Credentials := aws.Credentials c;
                          aws.Region := Some region |} (world s) = (Err e, w) ∧
          lookupClient (plugin s') region = None ∧
          clients (plugin s') = clients (plugin s)).
Proof using Type.
  intros s.
  destruct (run_calls_sound
              {| getenv := os_Getenv; newClient := newAWSClient |} calls
              {| plugin := NewIIDResolverPlugin os_Getenv newAWSClient;
                 world := w0; trace := t0 |}) as [Hh Hr].
  { split; [done|]. by intros [? [=]]. }
  fold s in Hh, Hr.
  destruct (lookupClient (plugin s) region) as [cl|] eqn:Hl.
  { by rewrite (getRegionClient_hit _ _ _ Hl). }
  destruct (conf (plugin s)) as [c|] eqn:Hc.
  2:{ rewrite getRegionClient_not_configured by done. intros [= <- <-]. by left. }
  pose proof (getRegionClient_miss region s c Hl Hc) as H. cbv zeta in H.
  rewrite Hh in H. simpl in H.
  destruct (Hr ltac:(by rewrite Hc)) as [m Hm].
  destruct (newAWSClient _ _) as [[cl|err] w] eqn:Hnew; rewrite H, ?Hm; [done|].
  intros [= <- <-]. right. exists c, w. split; [done|]. split; [done|].
  unfold lookupClient in *. simpl. rewrite Hm in Hl. done.
Qed.

(** ** Clients and credentials *)

(** From a configured plugin, over calls among which no Configure
    succeeds: the configuration keeps its credentials and the plugin
    its hooks, and every call of the client factory is given these
    credentials and a region. *)
Theorem newClient_given_credentials (s0 : ST) (c0 : aws.Config) (calls : list (Call Ctx)) :
  conf (plugin s0) = Some c0 →
  quiet calls s0 = true →
  (∃ c, conf (plugin (run calls s0)) = Some c ∧
        aws.Credentials c = aws.Credentials c0) ∧
  hooks (plugin (run calls s0)) = hooks (plugin s0) ∧
  ∃ evs, trace (run calls s0) = trace s0 ++ evs ∧
    ∀ c r, EvNewClient c r ∈ evs →
           aws.Credentials c = aws.Credentials c0 ∧ is_Some (aws.Region c).
Proof using Type.
  intros Hc0 Hq.
  apply (run_calls_invariant (λ s,
    (∃ c, conf (plugin s) = Some c ∧ aws.Credentials c = aws.Credentials c0) ∧
    hooks (plugin s) = hooks (plugin s0) ∧
    ∃ evs, trace s = trace s0 ++ evs ∧
      ∀ c r, EvNewClient c r ∈ evs →
             aws.Credentials c = aws.Credentials c0 ∧ is_Some (aws.Region c)));
    [| |done|].
  - intros region s ((c & Hc & Hcred) & Hh & evs & Htr & Hev).
    rewrite getRegionClient_hooks. split; [|split; [done|]].
    + destruct (lookupClient (plugin s) region) as [cl|] eqn:Hl.
      { rewrite (getRegionClient_hit _ _ _ Hl). eauto. }
      pose proof (getRegionClient_miss region s c Hl Hc) as H. cbv zeta in H.
      destruct (newClient _ _ _) as [[cl|err] w]; rewrite H;
        [destruct (clients (plugin s))|]; simpl; eauto.
    + destruct (lookupClient (plugin s) region) as [cl|] eqn:Hl.
      { rewrite (getRegionClient_hit _ _ _ Hl). eauto. }
      pose proof (getRegionClient_miss region s c Hl Hc) as H. cbv zeta in H.
      destruct (newClient _ _ _) as [r w].
      exists (evs ++ [EvNewClient {| aws.Credentials := aws.Credentials c;
                                    aws.Region := Some region |} r]).
      split.
      * rewrite H. destruct r as [cl|err]; [destruct (clients (plugin s))|];
          simpl; by rewrite Htr, app_assoc.
      * intros c' r' [Hin|Hin%list_elem_of_singleton]%elem_of_app; [by eapply Hev|].
        injection Hin as -> ->. simpl. split; [done|by eexists].
  - intros ev w s Hkind (Hconf & Hh & evs & Htr & Hev). split; [done|]. split; [done|].
    exists (evs ++ [ev]). simpl. split; [by rewrite Htr, app_assoc|].
    intros c r [Hin|Hin%list_elem_of_singleton]%elem_of_app; [by eapply Hev|].
    subst ev. done.
  - split; [by exists c0|]. split; [done|]. exists []. split; [by rewrite app_nil_r|].
    by intros c r ?%elem_of_nil.
Qed.

(** ** Why a batch fails *)

Lemma anatomy_app (h : Hooks W Ctx) (evs1 evs2 : list (Event W Ctx)) (err : option error) :
  (∀ c e, EvNewClient c (Err e) ∉ evs1) →
  anatomy h evs2 err → anatomy h (evs1 ++ evs2) err.
Proof using Type.
  intros H1 [Hf Hr]. split.
  - intros c e [Hin|Hin]%elem_of_app; [by apply H1 in Hin|by eapply Hf].
  - intros e He. destruct (Hr e He) as [->|[(c & w & w' & Hnew & Hlast)|(ev & e' & Hlast & Hrf & ->)]].
    + by left.
    + right. left. exists c, w, w'. split; [done|].
      destruct evs2 as [|ev2 evs2] using rev_ind; [done|].
      by rewrite app_assoc, last_snoc in *.
    + right. right. exists ev, e'. split; [|done].
      destruct evs2 as [|ev2 evs2] using rev_ind; [done|].
      by rewrite app_assoc, last_snoc in *.
Qed.

Lemma getRegionClient_anatomy (region : string) (s s' : ST) (r : result (awsClient W Ctx)) :
  getRegionClient region s = (r, s') → cache_ready (plugin s) →
  ∃ evs, trace s' = trace s ++ evs ∧
    Forall (λ ev, is_remote_call ev = false) evs ∧
    match r with
    | Ok _ => ∀ c e, EvNewClient c (Err e) ∉ evs
    | Err e =>
        (evs = [] ∧ e = iidError_New "not configured" []) ∨
        (∃ c w w', newClient (hooks (plugin s)) c w = (Err e, w') ∧
                   evs = [EvNewClient c (Err e)])
    end.
Proof using Type.
  intros Hget Hr.
  destruct (lookupClient (plugin s) region) as [cl|] eqn:Hl.
  { rewrite (getRegionClient_hit _ _ _ Hl) in Hget. injection Hget as <- <-.
    exists []. rewrite app_nil_r. repeat split; [done|]. by intros c e ?%elem_of_nil. }
  destruct (conf (plugin s)) as [c|] eqn:Hc.
  2:{ rewrite getRegionClient_not_configured in Hget by done. injection Hget as <- <-.
      exists []. rewrite app_nil_r. repeat split; [done|]. by left. }
  pose proof (getRegionClient_miss region s c Hl Hc) as H. cbv zeta in H.
  destruct (Hr ltac:(by rewrite Hc)) as [m Hm].
  destruct (newClient _ _ _) as [[cl|err] w] eqn:Hnew; rewrite H, ?Hm in Hget;
    injection Hget as <- <-; eexists [_]; simpl.
  - repeat split; [by repeat constructor|].
    by intros c' e ?%list_elem_of_singleton.
  - repeat split; [by repeat constructor|]. right. by eexists _, _, _.
Qed.

Lemma instances_loop_abort (ctx : Ctx) (client : awsClient W Ctx)
    (insts : list ec2.Instance) (selectorSet : gset string) (s s' : ST)
    (r : result (gset string)) :
  forRange (resolveInstance ctx client) insts selectorSet s = (r, s') →
  ∃ evs, trace s' = trace s ++ evs ∧
    (∀ c e, EvNewClient c (Err e) ∉ evs) ∧
    ∀ e, r = Err e →
         ∃ ev e', last evs = Some ev ∧ remote_failure ev = Some e' ∧ e = iidError_Wrap e'.
Proof using Type.
  revert selectorSet s. induction insts as [|inst insts IH]; intros selectorSet s.
  { intros [= <- <-]. exists []. rewrite app_nil_r. repeat split; [|done].
    by intros c e ?%elem_of_nil. }
  rewrite forRange_cons.
  destruct (wanted_profile_request inst) as [input|] eqn:Hw.
  - pose proof (resolveInstance_lookup ctx client selectorSet inst s input Hw) as H.
    destruct (GetInstanceProfileWithContext _ _ _ _) as [[output|e] w]; rewrite H; clear H.
    + intros (evs & Htr & Hnf & Herr)%IH.
      exists (EvGetInstanceProfile client input (Ok output) :: evs).
      split; [by rewrite Htr; simpl; rewrite <-app_assoc|]. split.
      * intros c e [?|Hin]%elem_of_cons; [done|]. by apply Hnf in Hin.
      * intros e He. destruct (Herr e He) as (ev & e' & Hlast & Hrf & ->).
        exists ev, e'. split; [|done]. destruct evs; [done|]. done.
    + intros [= <- <-]. exists [EvGetInstanceProfile client input (Err e)].
      simpl. split; [done|]. split; [by intros c e' ?%list_elem_of_singleton|].
      intros e' [= <-]. by eexists _, _.
  - rewrite resolveInstance_no_lookup by done. apply IH.
Qed.

Lemma resolveSpiffeID_anatomy (ctx : Ctx) (spiffeID : string) (s s' : ST)
    (r : result (option common.Selectors)) :
  resolveOne ctx spiffeID s = (r, s') → cache_ready (plugin s) →
  ∃ evs, trace s' = trace s ++ evs ∧ anatomy (hooks (plugin s)) evs (error_of r).
Proof using Type.
  unfold resolveSpiffeID. intros Hres Hready.
  destruct (parse spiffeID) as [[[a region] instanceID]|e].
  2:{ injection Hres as <- <-. eexists [_]. split; [done|].
      split; [by intros c e' ?%list_elem_of_singleton|done]. }
  unfold bind at 1 in Hres.
  destruct (getRegionClient region s) as [[client|e] s1] eqn:Hget.
  2:{ injection Hres as <- <-.
      destruct (getRegionClient_anatomy _ _ _ _ Hget Hready) as (evs1 & Htr1 & _ & Hkind).
      exists evs1. split; [done|]. simpl.
      destruct Hkind as [[-> ->]|(c & w & w' & Hnew & ->)].
      - split; [by intros c e ?%elem_of_nil|]. intros e [= <-]. by left.
      - split.
        + by intros c' e' [= -> ->]%list_elem_of_singleton.
        + intros e' [= <-]. right. left. by exists c, w, w'. }
  destruct (getRegionClient_anatomy _ _ _ _ Hget Hready) as (evs1 & Htr1 & _ & Hnf1).
  unfold bind at 1, wrapErr, callDescribeInstances in Hres.
  destruct (DescribeInstancesWithContext _ _ _ _) as [[resp|e] w].
  2:{ injection Hres as <- <-. eexists (evs1 ++ [_]). simpl.
      split; [by rewrite Htr1, app_assoc|].
      apply anatomy_app; [done|]. split.
      - by intros c e' ?%list_elem_of_singleton.
      - intros e' [= <-]. right. right. by eexists _, _. }
  unfold bind in Hres. rewrite forRange_reservations in Hres.
  destruct (forRange _ _ _ _) as [rl s3] eqn:Hloop.
  apply instances_loop_abort in Hloop as (evs3 & Htr3 & Hnf3 & Herr3). simpl in Htr3.
  exists (evs1 ++ EvDescribeInstances client
             {| ec2.InstanceIds := [aws.String_ instanceID];
                ec2.Filters := instanceFilters |} (Ok resp) :: evs3).
  split; [destruct rl; injection Hres as <- <-; by rewrite Htr3, Htr1, <-!app_assoc|].
  apply anatomy_app; [done|]. split.
  - intros c e [?|Hin]%elem_of_cons; [done|]. by apply Hnf3 in Hin.
  - intros e He. right. right.
    assert (rl = Err e) as -> by (destruct rl; injection Hres as <- <-; by simplify_eq/=).
    destruct (Herr3 e eq_refl) as (ev & e' & Hlast & Hrf & ->).
    exists ev, e'. split; [|done]. by destruct evs3.
Qed.

Lemma Resolve_loop_anatomy (ctx : Ctx) (ids : list string)
    (respMap : gmap string common.Selectors) (s s' : ST)
    (r : result (gmap string common.Selectors)) (h : Hooks W Ctx) :
  forRange (entry ctx) ids respMap s = (r, s') →
  hooks (plugin s) = h ∧ cache_ready (plugin s) →
  ∃ evs, trace s' = trace s ++ evs ∧ anatomy h evs (error_of r).
Proof using Type.
  revert respMap s. induction ids as [|spiffeID ids IH]; intros respMap s.
  { intros [= <- <-] _. exists []. rewrite app_nil_r. split; [done|].
    split; [by intros c e ?%elem_of_nil|done]. }
  rewrite forRange_cons. unfold resolveEntry at 1, bind. intros Hloop [Hh Hready].
  pose proof (resolveSpiffeID_invariant
                (λ s, hooks (plugin s) = h ∧ cache_ready (plugin s))) as Hinv.
  specialize (Hinv ltac:(intros region s0 [? ?]; split;
                           [by rewrite getRegionClient_hooks
                           |by apply getRegionClient_cache_ready])
                   ltac:(done) ctx spiffeID s (conj Hh Hready)).
  destruct (resolveOne ctx spiffeID s) as [r1 s1] eqn:H1. simpl in Hinv.
  destruct (resolveSpiffeID_anatomy _ _ _ _ _ H1 Hready) as (evs1 & Htr1 & Hf1 & Hr1).
  rewrite Hh in Hr1.
  destruct r1 as [sel|e].
  - assert (∃ m, (match sel with
                  | Some sel0 => ret (<[spiffeID:=sel0]> respMap)
                  | None => ret respMap
                  end) s1 = (Ok m, s1)) as [m Hm] by (destruct sel; by eexists).
    rewrite Hm in Hloop. destruct (IH _ _ Hloop Hinv) as (evs2 & Htr2 & Han).
    exists (evs1 ++ evs2). split; [by rewrite Htr2, Htr1, app_assoc|].
    apply anatomy_app; [|done]. intros c e Hin. by apply Hf1 in Hin.
  - injection Hloop as <- <-. exists evs1. by repeat split.
Qed.

Lemma Resolve_anatomy (ctx : Ctx) (req : noderesolver.ResolveRequest) (s s' : ST)
    (r : result noderesolver.ResolveResponse) :
  ResolveAll ctx req s = (r, s') → cache_ready (plugin s) →
  ∃ evs, trace s' = trace s ++ evs ∧ anatomy (hooks (plugin s)) evs (error_of r).
Proof using Type.
  unfold Resolve, bind. intros Hres Hready.
  destruct (forRange _ _ _ _) as [rl sl] eqn:Hloop.
  destruct (Resolve_loop_anatomy _ _ _ _ _ _ _ Hloop (conj eq_refl Hready))
    as (evs & Htr & Han).
  exists evs. destruct rl; injection Hres as <- <-; done.
Qed.

(** A client factory that fails is fatal to the batch: whenever a call
    of the factory made for a batch comes back with an error, Resolve
    returns that error as it is, not wrapped, and no result mapping. *)
Theorem Resolve_factory_error_fatal (ctx : Ctx) (req : noderesolver.ResolveRequest)
    (s s' : ST) (r : result noderesolver.ResolveResponse) :
  cache_ready (plugin s) →
  ResolveAll ctx req s = (r, s') →
  ∃ evs, trace s' = trace s ++ evs ∧
         ∀ c e, EvNewClient c (Err e) ∈ evs → r = Err e.
Proof using Type.
  intros Hready Hres.
  destruct (Resolve_anatomy _ _ _ _ _ Hres Hready) as (evs & Htr & Hf & _).
  exists evs. split; [done|]. intros c e Hin. apply Hf in Hin.
  destruct r; by simplify_eq/=.
Qed.

(** The errors of Resolve are of three kinds and no other: "not
    configured"; the error of the client factory, which failed last;
    the wrapped error of a remote call, which failed last.  Whatever
    the batch did before the failure, the failure ended it. *)
Theorem Resolve_failure_reasons (ctx : Ctx) (req : noderesolver.ResolveRequest)
    (s s' : ST) (e : error) :
  cache_ready (plugin s) →
  ResolveAll ctx req s = (Err e, s') →
  ∃ evs, trace s' = trace s ++ evs ∧
    (e = iidError_New "not configured" [] ∨
     (∃ c w w', newClient (hooks (plugin s)) c w = (Err e, w') ∧
                last evs = Some (EvNewClient c (Err e))) ∨
     (∃ ev e', last evs = Some ev ∧ remote_failure ev = Some e' ∧
               e = iidError_Wrap e')).
Proof using Type.
  intros Hready Hres.
  destruct (Resolve_anatomy _ _ _ _ _ Hres Hready) as (evs & Htr & _ & Hr).
  exists evs. split; [done|]. by apply Hr.
Qed.

(** With the client factory of the source, [newAWSClient], every error
    that Resolve returns is of the resolver's class. *)
Theorem Resolve_errors_of_class {Session : Type}
    (session_NewSession : aws.Config → W → result Session * W)
    (describe : Session → Ctx → ec2.DescribeInstancesInput → W →
                result ec2.DescribeInstancesOutput * W)
    (getProfile : Session → Ctx → iam.GetInstanceProfileInput → W →
                  result iam.GetInstanceProfileOutput * W)
    (ctx : Ctx) (req : noderesolver.ResolveRequest) (s s' : ST) (e : error) :
  newClient (hooks (plugin s)) = newAWSClient session_NewSession describe getProfile →
  cache_ready (plugin s) →
  ResolveAll ctx req s = (Err e, s') →
  is_iidError e = true.
Proof using Type.
  intros Hhook Hready Hres.
  destruct (Resolve_anatomy _ _ _ _ _ Hres Hready) as (evs & Htr & _ & Hr).
  destruct (Hr e eq_refl) as [->|[(c & w & w' & Hnew & _)|(ev & e' & _ & _ & ->)]];
    [done| |done].
  rewrite Hhook in Hnew. unfold newAWSClient in Hnew.
  destruct (session_NewSession c w) as [[sess|err] w'']; by simplify_eq.
Qed.

(** ** The result mapping *)

(** The keys of the result mapping of a batch are the identities of
    the batch that parse, all of them and no other. *)
Theorem Resolve_keys (ctx : Ctx) (req : noderesolver.ResolveRequest) (s s' : ST)
    (resp : noderesolver.ResolveResponse) :
  ResolveAll ctx req s = (Ok resp, s') →
  ∀ k, is_Some (noderesolver.Map resp !! k) ↔
       k ∈ noderesolver.BaseSpiffeIdList req ∧ is_Ok (parse k) = true.
Proof using Type.
  intros Hloop%Resolve_loop_Ok k.
  rewrite (Resolve_loop_keys _ _ _ _ _ _ Hloop k), lookup_empty.
  split; [intros [[? ?]|?]; done|auto].
Qed.

Lemma makeSelectors_sorted (selectorSet : gset string) :
  StronglySorted (strict String.le)
    (common.Value <$> common.Entries (makeSelectors selectorSet)).
Proof using Type.
  rewrite makeSelectors_values. apply StronglySorted_strict.
  - apply sort_Strings_Sorted.
  - rewrite sort_Strings_Permutation. apply NoDup_elements.
Qed.

Lemma makeSelectors_typed (selectorSet : gset string) :
  Forall (λ sel, common.Type_ sel = pluginName)
    (common.Entries (makeSelectors selectorSet)).
Proof using Type.
  unfold makeSelectors. simpl. apply Forall_forall. intros sel.
  rewrite list_elem_of_fmap. by intros (v & -> & _).
Qed.

Lemma Resolve_loop_entries (ctx : Ctx) (ids : list string)
    (respMap respMap' : gmap string common.Selectors) (s s' : ST)
    (Q : common.Selectors → Prop) :
  (∀ values, Q (normalize values)) →
  forRange (entry ctx) ids respMap s = (Ok respMap', s') →
  (∀ k sel, respMap !! k = Some sel → Q sel) →
  ∀ k sel, respMap' !! k = Some sel → Q sel.
Proof using Type.
  intros HQ. revert respMap s. induction ids as [|spiffeID ids IH]; intros respMap s.
  { by intros [= <- <-]. }
  rewrite forRange_cons.
  destruct (entry ctx respMap spiffeID s) as [[m1|e] s1] eqn:H1; [|done].
  apply resolveEntry_Ok in H1 as (selectors & H1 & ->).
  intros Hloop Hm. apply (IH _ _ Hloop). destruct selectors as [sel|]; [|done].
  apply resolveSpiffeID_normalizes in H1 as (values & ->).
  intros k sel'. rewrite lookup_insert. case_decide; [|by apply Hm].
  intros [= <-]. apply HQ.
Qed.

(** Every entry of the result mapping of a batch is a normalization:
    its selectors are of the resolver's type, and their values are
    strictly ascending in byte order, hence without duplicates. *)
Theorem Resolve_entries_sorted (ctx : Ctx) (req : noderesolver.ResolveRequest)
    (s s' : ST) (resp : noderesolver.ResolveResponse) :
  ResolveAll ctx req s = (Ok resp, s') →
  ∀ k sel, noderesolver.Map resp !! k = Some sel →
    (∃ values, sel = normalize values) ∧
    StronglySorted (strict String.le) (common.Value <$> common.Entries sel) ∧
    Forall (λ entry, common.Type_ entry = "aws_iid") (common.Entries sel).
Proof using Type.
  intros Hloop%Resolve_loop_Ok.
  eapply (Resolve_loop_entries ctx _ ∅ _ s s'); [|exact Hloop|].
  - intros values. split; [by exists values|].
    split; [apply makeSelectors_sorted|apply makeSelectors_typed].
  - by intros k sel ?%lookup_empty_Some.
Qed.

(** The loop started from a map is the loop started from the empty
    map, its entries laid over the map. *)
Lemma Resolve_loop_union (ctx : Ctx) (ids : list string)
    (m1 m : gmap string common.Selectors) (s : ST) :
  forRange (entry ctx) ids (m1 ∪ m) s
  = match forRange (entry ctx) ids m1 s with
    | (Ok m', s') => (Ok (m' ∪ m), s')
    | (Err e, s') => (Err e, s')
    end.
Proof using Type.
  revert m1 s. induction ids as [|spiffeID ids IH]; intros m1 s; [done|].
  rewrite !forRange_cons. unfold resolveEntry at 1 3, bind.
  destruct (resolveOne ctx spiffeID s) as [[[sel|]|e] s1]; unfold ret; [| |done].
  - rewrite insert_union_l. apply IH.
  - apply IH.
Qed.

(** Batches compose: a batch cut in two and resolved by two calls, one
    after the other, ends in the same state as the whole batch, fails
    where it fails, and when both calls succeed the whole batch returns
    the entries of the second call laid over those of the first. *)
Theorem Resolve_app (ctx : Ctx) (ids1 ids2 : list string) (s : ST) :
  Resolve ParseSpiffeID AllowAnyTrustDomainAgent ctx
    {| noderesolver.BaseSpiffeIdList := ids1 ++ ids2 |} s
  = match Resolve ParseSpiffeID AllowAnyTrustDomainAgent ctx
            {| noderesolver.BaseSpiffeIdList := ids1 |} s with
    | (Err e, s1) => (Err e, s1)
    | (Ok resp1, s1) =>
        match Resolve ParseSpiffeID AllowAnyTrustDomainAgent ctx
                {| noderesolver.BaseSpiffeIdList := ids2 |} s1 with
        | (Err e, s2) => (Err e, s2)
        | (Ok resp2, s2) =>
            (Ok {| noderesolver.Map :=
                     noderesolver.Map resp2 ∪ noderesolver.Map resp1 |}, s2)
        end
    end.
Proof using Type.
  unfold Resolve, bind, ret. cbn [noderesolver.BaseSpiffeIdList].
  rewrite forRange_app.
  destruct (forRange (entry ctx) ids1 ∅ s) as [[m1|e] s1]; [|done].
  cbn [noderesolver.Map].
  rewrite <-(left_id_L ∅ (∪) m1) at 1. rewrite Resolve_loop_union.
  destruct (forRange (entry ctx) ids2 ∅ s1) as [[m2|e] s2]; done.
Qed.

(** ** The queries of a batch *)

Lemma instances_loop_events (ctx : Ctx) (client : awsClient W Ctx)
    (insts : list ec2.Instance) (selectorSet : gset string) (s s' : ST)
    (r : result (gset string)) :
  forRange (resolveInstance ctx client) insts selectorSet s = (r, s') →
  ∃ evs, trace s' = trace s ++ evs ∧
         Forall (λ ev, ∃ input answer, ev = EvGetInstanceProfile client input answer) evs.
Proof using Type.
  revert selectorSet s. induction insts as [|inst insts IH]; intros selectorSet s.
  { intros [= <- <-]. exists []. by rewrite app_nil_r. }
  rewrite forRange_cons.
  destruct (wanted_profile_request inst) as [input|] eqn:Hw.
  - pose proof (resolveInstance_lookup ctx client selectorSet inst s input Hw) as H.
    destruct (GetInstanceProfileWithContext _ _ _ _) as [[output|e] w]; rewrite H; clear H.
    + intros (evs & Htr & Hev)%IH. eexists (_ :: evs).
      split; [by rewrite Htr; simpl; rewrite <-app_assoc|]. constructor; eauto.
    + intros [= <- <-]. eexists [_]. split; [done|]. constructor; eauto.
  - rewrite resolveInstance_no_lookup by done. apply IH.
Qed.

Lemma omap_describe_profiles (client : awsClient W Ctx) (evs : list (Event W Ctx)) :
  Forall (λ ev, ∃ input answer, ev = EvGetInstanceProfile client input answer) evs →
  omap describe_request evs = [].
Proof using Type. induction 1 as [|ev evs (input & answer & ->) _ IH]; [done|]. by simpl. Qed.

Lemma omap_describe_silent (evs : list (Event W Ctx)) :
  Forall (λ ev, is_remote_call ev = false) evs → omap describe_request evs = [].
Proof using Type. induction 1 as [|ev evs Hev _ IH]; [done|]. by destruct ev. Qed.

Local Abbreviation wanted_query :=
  (wanted_describe_request ParseSpiffeID AllowAnyTrustDomainAgent).

Lemma resolveSpiffeID_queries (ctx : Ctx) (spiffeID : string) (s s' : ST)
    (r : result (option common.Selectors)) :
  resolveOne ctx spiffeID s = (r, s') →
  ∃ evs, trace s' = trace s ++ evs ∧
    omap describe_request evs `prefix_of` option_list (wanted_query spiffeID) ∧
    (error_of r = None → omap describe_request evs = option_list (wanted_query spiffeID)).
Proof using Type.
  unfold resolveSpiffeID, wanted_describe_request.
  destruct (parse spiffeID) as [[[a region] instanceID]|e].
  2:{ intros [= <- <-]. by eexists [_]. }
  unfold bind at 1.
  destruct (getRegionClient_trace region s) as (evs1 & Htr1 & Hsil%omap_describe_silent & _).
  destruct (getRegionClient region s) as [[client|e] s1]; simpl in Htr1.
  2:{ intros [= <- <-]. exists evs1. rewrite Hsil. split; [done|].
      split; [apply prefix_nil|done]. }
  unfold bind at 1, wrapErr, callDescribeInstances.
  destruct (DescribeInstancesWithContext _ _ _ _) as [[resp|e] w].
  2:{ intros [= <- <-]. eexists (evs1 ++ [_]). simpl.
      split; [by rewrite Htr1, app_assoc|]. by rewrite omap_app, Hsil. }
  unfold bind. rewrite forRange_reservations.
  destruct (forRange _ _ _ _) as [rl s3] eqn:Hloop.
  apply instances_loop_events in Hloop as (evs3 & Htr3 & Hev3%omap_describe_profiles).
  simpl in Htr3. intros Hres.
  exists (evs1 ++ EvDescribeInstances client
             {| ec2.InstanceIds := [aws.String_ instanceID];
                ec2.Filters := instanceFilters |} (Ok resp) :: evs3).
  split; [destruct rl; injection Hres as <- <-; by rewrite Htr3, Htr1, <-!app_assoc|].
  rewrite omap_app, Hsil. simpl.
  change (list_omap (Event W Ctx) ec2.DescribeInstancesInput describe_request evs3)
    with (omap describe_request evs3).
  by rewrite Hev3.
Qed.

(** The instance-description queries of a batch are, in order, one per
    identity of the batch that parses, up to the point where the batch
    left and all of them when it succeeded: each names the instance ID
    of its identity, alone, and asks for the states pending and
    running. *)
Theorem Resolve_queries (ctx : Ctx) (req : noderesolver.ResolveRequest) (s s' : ST)
    (r : result noderesolver.ResolveResponse) :
  (∀ spiffeID accountID region instanceID,
     parse spiffeID = Ok (accountID, region, instanceID) →
     wanted_query spiffeID
     = Some {| ec2.InstanceIds := [Some instanceID];
               ec2.Filters :=
                 [ {| ec2.Name := Some "instance-state-name";
                      ec2.Values := [Some "pending"; Some "running"] |} ] |}) ∧
  (ResolveAll ctx req s = (r, s') →
   ∃ evs, trace s' = trace s ++ evs ∧
     omap describe_request evs
       `prefix_of` omap wanted_query (noderesolver.BaseSpiffeIdList req) ∧
     (is_Ok r = true →
      omap describe_request evs = omap wanted_query (noderesolver.BaseSpiffeIdList req))).
Proof using Type.
  split.
  { intros spiffeID a region instanceID Hp. unfold wanted_describe_request. by rewrite Hp. }
  unfold Resolve, bind. destruct (forRange _ _ _ _) as [rl sl] eqn:Hloop. intros Hres.
  assert (∃ evs, trace sl = trace s ++ evs ∧
            omap describe_request evs
              `prefix_of` omap wanted_query (noderesolver.BaseSpiffeIdList req) ∧
            (error_of rl = None →
             omap describe_request evs
             = omap wanted_query (noderesolver.BaseSpiffeIdList req)))
    as (evs & Htr & Hpre & Hok).
  { clear Hres. revert Hloop. generalize (∅ : gmap string common.Selectors) as respMap.
    revert s. induction (noderesolver.BaseSpiffeIdList req) as [|spiffeID ids IH];
      intros s respMap.
    { intros [= <- <-]. exists []. by rewrite app_nil_r. }
    rewrite forRange_cons. unfold resolveEntry at 1, bind.
    destruct (resolveOne ctx spiffeID s) as [r1 s1] eqn:H1.
    apply resolveSpiffeID_queries in H1 as (evs1 & Htr1 & Hpre1 & Hok1).
    assert (Hcons : ∀ l, omap wanted_query (spiffeID :: l)
                         = option_list (wanted_query spiffeID) ++ omap wanted_query l).
    { intros l. simpl. by destruct (wanted_query spiffeID). }
    rewrite Hcons. destruct r1 as [sel|e].
    - assert (∃ m, (match sel with
                    | Some sel0 => ret (<[spiffeID:=sel0]> respMap)
                    | None => ret respMap
                    end) s1 = (Ok m, s1)) as [m ->] by (destruct sel; by eexists).
      intros (evs2 & Htr2 & Hpre2 & Hok2)%IH. exists (evs1 ++ evs2).
      split; [by rewrite Htr2, Htr1, app_assoc|].
      rewrite omap_app, (Hok1 eq_refl). split; [by apply prefix_app|].
      intros Hr. by rewrite (Hok2 Hr).
    - intros [= <- <-]. exists evs1. split; [done|]. split; [|done].
      by apply prefix_app_r. }
  exists evs. destruct rl; injection Hres as <- <-;
    (split; [done|split; [done|]]); [intros _; by apply Hok|done].
Qed.

(** The account of an identity plays no part in its resolution: two
    identities with the same region and instance ID resolve alike,
    whatever their accounts. *)
Theorem resolveSpiffeID_ignores_account (ctx : Ctx)
    (spiffeID1 spiffeID2 account1 account2 region instanceID : string) (s : ST) :
  parseAgentID ParseSpiffeID AllowAnyTrustDomainAgent spiffeID1
  = Ok (account1, region, instanceID) →
  parseAgentID ParseSpiffeID AllowAnyTrustDomainAgent spiffeID2
  = Ok (account2, region, instanceID) →
  resolveSpiffeID ParseSpiffeID AllowAnyTrustDomainAgent ctx spiffeID1 s
  = resolveSpiffeID ParseSpiffeID AllowAnyTrustDomainAgent ctx spiffeID2 s.
Proof using Type. intros H1 H2. unfold resolveSpiffeID. by rewrite H1, H2. Qed.

(** A batch without an identity that parses succeeds with an empty
    mapping, configured or not: one warning per identity, and nothing
    else happens to the plugin, the world or the trace. *)
Theorem Resolve_all_malformed (ctx : Ctx) (req : noderesolver.ResolveRequest) (s : ST) :
  Forall (λ id, is_Ok (parse id) = false) (noderesolver.BaseSpiffeIdList req) →
  ∃ s', ResolveAll ctx req s = (Ok {| noderesolver.Map := ∅ |}, s') ∧
        plugin s' = plugin s ∧ world s' = world s ∧
        ∃ evs, trace s' = trace s ++ evs ∧
               length evs = length (noderesolver.BaseSpiffeIdList req) ∧
               Forall (λ ev, is_warning ev = true) evs.
Proof using Type.
  intros Hbad. unfold Resolve, bind.
  assert (∀ respMap, ∃ s', forRange (entry ctx) (noderesolver.BaseSpiffeIdList req) respMap s
            = (Ok respMap, s') ∧ plugin s' = plugin s ∧ world s' = world s ∧
            ∃ evs, trace s' = trace s ++ evs ∧
                   length evs = length (noderesolver.BaseSpiffeIdList req) ∧
                   Forall (λ ev, is_warning ev = true) evs) as Hloop.
  { revert s. induction Hbad as [|spiffeID ids Hid _ IH]; intros s respMap.
    { exists s. repeat split. exists []. by rewrite app_nil_r. }
    destruct (parse spiffeID) as [x|e] eqn:Hp; [done|].
    rewrite forRange_cons. unfold resolveEntry at 1, bind.
    rewrite (resolveSpiffeID_malformed ctx spiffeID e s Hp). unfold ret.
    destruct (IH (emit (EvWarnf "unrecognized Agent ID: %s: %v"
                          [ArgString spiffeID; ArgError e]) s) respMap)
      as (s' & -> & Hpl & Hw & evs & Htr & Hlen & Hev).
    exists s'. repeat split; try done. eexists (_ :: evs).
    split; [by rewrite Htr; simpl; rewrite <-app_assoc|].
    split; [by simpl; rewrite Hlen|by constructor]. }
  destruct (Hloop ∅) as (s' & -> & Hrest). by exists s'.
Qed.

(** ** The selectors of an identity *)

Lemma elem_of_makeSelectors (selectorSet : gset string) (v : string) :
  v ∈ common.Value <$> common.Entries (makeSelectors selectorSet) ↔ v ∈ selectorSet.
Proof using Type. by rewrite makeSelectors_values, sort_Strings_Permutation, elem_of_elements. Qed.

Lemma normalize_ext (values values' : list string) :
  (∀ v, v ∈ values ↔ v ∈ values') → normalize values = normalize values'.
Proof using Type.
  intros Hsame. unfold normalize. f_equal. apply set_eq. intros v.
  by rewrite !elem_of_addSelectors, Hsame.
Qed.

Lemma instances_loop_values (ctx : Ctx) (client : awsClient W Ctx)
    (insts : list ec2.Instance) (selectorSet selectorSet' : gset string) (s s' : ST) :
  forRange (resolveInstance ctx client) insts selectorSet s = (Ok selectorSet', s') →
  ∃ evs, trace s' = trace s ++ evs ∧
    Forall (λ ev, ∃ input answer, ev = EvGetInstanceProfile client input answer) evs ∧
    ∀ v, v ∈ selectorSet' ↔
         v ∈ selectorSet ∨
         (∃ inst, inst ∈ insts ∧ v ∈ instance_values inst) ∨
         (∃ input output,
            EvGetInstanceProfile client input (Ok output) ∈ evs ∧
            v ∈ resolveInstanceProfile (iam.instanceProfile output)).
Proof using Type.
  revert selectorSet s. induction insts as [|inst insts IH]; intros selectorSet s.
  { intros [= <- <-]. exists []. rewrite app_nil_r. split; [done|]. split; [done|].
    intros v. split; [auto|]. intros [?|[(? & ?%elem_of_nil & _)|(? & ? & ?%elem_of_nil & _)]];
      done. }
  rewrite forRange_cons.
  assert (Hbase : ∀ v, v ∈ addSelectors (addSelectors selectorSet (resolveTags (ec2.Tags inst)))
                             (resolveSecurityGroups (ec2.SecurityGroups inst))
                       ↔ v ∈ selectorSet ∨ v ∈ instance_values inst).
  { intros v. unfold instance_values. rewrite !elem_of_addSelectors, elem_of_app.
    split; [intros [[?|?]|?]|intros [?|[?|?]]]; auto. }
  destruct (wanted_profile_request inst) as [input|] eqn:Hw.
  - pose proof (resolveInstance_lookup ctx client selectorSet inst s input Hw) as H.
    destruct (GetInstanceProfileWithContext _ _ _ _) as [[output|e] w]; rewrite H; clear H;
      [|done].
    intros (evs & Htr & Hev & Hval)%IH.
    exists (EvGetInstanceProfile client input (Ok output) :: evs).
    split; [by rewrite Htr; simpl; rewrite <-app_assoc|].
    split; [constructor; eauto|].
    intros v. rewrite Hval, elem_of_addSelectors, Hbase. split.
    + intros [[[?|?]|?]|[(i & ? & ?)|(inp & out & ? & ?)]]; auto.
      * right. left. exists inst. by rewrite elem_of_cons; auto.
      * right. right. exists input, output. by rewrite elem_of_cons; auto.
      * right. left. exists i. by rewrite elem_of_cons; auto.
      * right. right. exists inp, out. by rewrite elem_of_cons; auto.
    + intros [?|[(i & [->|?]%elem_of_cons & ?)|(inp & out & [Heq|?]%elem_of_cons & ?)]];
        auto.
      * right. left. by exists i.
      * injection Heq as -> ->. auto.
      * right. right. by exists inp, out.
  - rewrite resolveInstance_no_lookup by done.
    intros (evs & Htr & Hev & Hval)%IH. exists evs. split; [done|]. split; [done|].
    intros v. rewrite Hval, Hbase. split.
    + intros [[?|?]|[(i & ? & ?)|?]]; auto.
      * right. left. exists inst. by rewrite elem_of_cons; auto.
      * right. left. exists i. by rewrite elem_of_cons; auto.
    + intros [?|[(i & [->|?]%elem_of_cons & ?)|?]]; auto.
      right. left. by exists i.
Qed.

(** The selectors of an identity are exactly what the remote calls
    returned for it: a value is among them if and only if it is the
    value of a tag or of a security group of a described instance, or
    of a role of a profile that a lookup returned. *)
Theorem resolveSpiffeID_values (ctx : Ctx) (spiffeID : string) (s s' : ST)
    (selectors : common.Selectors) :
  resolveOne ctx spiffeID s = (Ok (Some selectors), s') →
  ∃ evs, trace s' = trace s ++ evs ∧
    ∀ v, v ∈ common.Value <$> common.Entries selectors ↔
         (∃ inst, inst ∈ flat_map described_instances evs ∧
                  (v ∈ resolveTags (ec2.Tags inst) ∨
                   v ∈ resolveSecurityGroups (ec2.SecurityGroups inst))) ∨
         (∃ client input output,
            EvGetInstanceProfile client input (Ok output) ∈ evs ∧
            v ∈ resolveInstanceProfile (iam.instanceProfile output)).
Proof using Type.
  unfold resolveSpiffeID.
  destruct (parse spiffeID) as [[[a region] instanceID]|e]; [|done].
  unfold bind at 1.
  destruct (getRegionClient_trace region s) as (evs1 & Htr1 & Hsil & _).
  destruct (getRegionClient region s) as [[client|e] s1]; simpl in Htr1; [|done].
  unfold bind at 1, wrapErr, callDescribeInstances.
  destruct (DescribeInstancesWithContext _ _ _ _) as [[resp|e] w]; [|done].
  unfold bind, ret. rewrite forRange_reservations.
  destruct (forRange _ _ _ _) as [[selectorSet|e] s3] eqn:Hloop; [|done].
  apply instances_loop_values in Hloop as (evs3 & Htr3 & Hev3 & Hval). simpl in Htr3.
  intros [= <- <-].
  exists (evs1 ++ EvDescribeInstances client
             {| ec2.InstanceIds := [aws.String_ instanceID];
                ec2.Filters := instanceFilters |} (Ok resp) :: evs3).
  split; [by rewrite Htr3, Htr1, <-!app_assoc|].
  assert (Hd1 : flat_map described_instances evs1 = []).
  { clear -Hsil. induction Hsil as [|ev evs Hev _ IH]; [done|]. by destruct ev. }
  assert (Hd3 : flat_map described_instances evs3 = []).
  { clear -Hev3. induction Hev3 as [|ev evs (? & ? & ->) _ IH]; [done|]. done. }
  assert (Hd : flat_map described_instances
                 (evs1 ++ EvDescribeInstances client
                    {| ec2.InstanceIds := [aws.String_ instanceID];
                       ec2.Filters := instanceFilters |} (Ok resp) :: evs3)
               = all_instances resp).
  { rewrite flat_map_app. simpl. by rewrite Hd1, Hd3, app_nil_r. }
  rewrite Hd. intros v. rewrite elem_of_makeSelectors, Hval, elem_of_empty.
  fold (all_instances resp). unfold instance_values. split.
  - intros [[]|[(i & Hi & Hv%elem_of_app)|(inp & out & Hin & Hv)]].
    + left. by exists i.
    + right. exists client, inp, out. split; [|done].
      rewrite elem_of_app, elem_of_cons. auto.
  - intros [(i & Hi & Hv)|(cl & inp & out & Hin & Hv)].
    + right. left. exists i. by rewrite elem_of_app.
    + right. right. apply elem_of_app in Hin as [Hin|[?|Hin]%elem_of_cons]; [|done|].
      * exfalso. rewrite Forall_forall in Hsil. by apply Hsil in Hin.
      * rewrite Forall_forall in Hev3. destruct (Hev3 _ Hin) as (? & ? & [= -> _ _]).
        by exists inp, out.
Qed.

Lemma instances_loop_no_profiles (ctx : Ctx) (client : awsClient W Ctx)
    (insts : list ec2.Instance) (selectorSet : gset string) (s : ST) :
  Forall (λ inst, wanted_profile_request inst = None) insts →
  forRange (resolveInstance ctx client) insts selectorSet s
  = (Ok (addSelectors selectorSet (flat_map instance_values insts)), s).
Proof using Type.
  intros Hno. revert selectorSet. induction Hno as [|inst insts Hinst _ IH];
    intros selectorSet; [done|].
  rewrite forRange_cons, resolveInstance_no_lookup by done. rewrite IH.
  simpl flat_map. unfold instance_values at 2. by rewrite !addSelectors_app, app_assoc.
Qed.

(** When no described instance has a profile with an ARN, the instance
    description is the only remote call, and the selectors are the
    normalization of the tag and security group values of the
    instances: the order in which the answer lists its instances makes
    no difference to them. *)
Theorem resolveSpiffeID_without_profiles (ctx : Ctx)
    (spiffeID accountID region instanceID : string) (s s2 : ST)
    (client : awsClient W Ctx) (resp : ec2.DescribeInstancesOutput) (w3 : W) :
  let input := {| ec2.InstanceIds := [aws.String_ instanceID];
                  ec2.Filters := instanceFilters |} in
  parse spiffeID = Ok (accountID, region, instanceID) →
  getRegionClient region s = (Ok client, s2) →
  DescribeInstancesWithContext client ctx input (world s2) = (Ok resp, w3) →
  Forall (λ inst, wanted_profile_request inst = None) (all_instances resp) →
  resolveOne ctx spiffeID s
  = (Ok (Some (normalize (flat_map instance_values (all_instances resp)))),
     emit (EvDescribeInstances client input (Ok resp)) (set_world w3 s2)) ∧
  ∀ resp', all_instances resp' ≡ₚ all_instances resp →
           normalize (flat_map instance_values (all_instances resp'))
           = normalize (flat_map instance_values (all_instances resp)).
Proof using Type.
  intros input Hparse Hclient Hdesc Hno. split.
  - unfold resolveSpiffeID. rewrite Hparse. unfold bind at 1. rewrite Hclient.
    unfold bind at 1, wrapErr, callDescribeInstances. fold input. rewrite Hdesc.
    unfold bind. rewrite forRange_reservations. fold (all_instances resp).
    by rewrite instances_loop_no_profiles.
  - intros resp' Hperm. apply normalize_ext. intros v.
    rewrite !list_elem_of_In, !in_flat_map. setoid_rewrite <-list_elem_of_In.
    by setoid_rewrite Hperm.
Qed.

(** ** The three kinds of values *)

Lemma resolveTags_head (tags : list ec2.Tag) (v : string) :
  v ∈ resolveTags tags → ∃ rest, v = "tag:" +:+ rest.
Proof using Type. unfold resolveTags. rewrite list_elem_of_fmap. intros (tag & -> & _). by eexists. Qed.

Lemma resolveSecurityGroups_head (sgs : list ec2.GroupIdentifier) (v : string) :
  v ∈ resolveSecurityGroups sgs → ∃ rest, v = "sg:id:" +:+ rest ∨ v = "sg:name:" +:+ rest.
Proof using Type.
  unfold resolveSecurityGroups. rewrite list_elem_of_In, in_flat_map.
  intros (sg & _ & [<-|[<-|[]]]); eauto.
Qed.

Lemma resolveInstanceProfile_head (p : iam.InstanceProfile) (v : string) :
  v ∈ resolveInstanceProfile p → ∃ rest, v = "iamrole:" +:+ rest.
Proof using Type. intros (role & arn & _ & _ & ->)%elem_of_resolveInstanceProfile. by eexists. Qed.

(** The values of tags, of security groups and of roles never meet:
    no tag, whatever its key and value, gives the value of a security
    group or of a role, no security group that of a role, and the ID
    of a group never reads as the name of one. *)
Theorem selector_kinds_disjoint (tags : list ec2.Tag) (sgs : list ec2.GroupIdentifier)
    (p : iam.InstanceProfile) (v : string) :
  (v ∈ resolveTags tags →
   (v ∉ resolveSecurityGroups sgs) ∧ (v ∉ resolveInstanceProfile p)) ∧
  (v ∈ resolveSecurityGroups sgs → v ∉ resolveInstanceProfile p) ∧
  (∀ id name : option string,
     ("sg:id:" +:+ aws.StringValue id) ≠ ("sg:name:" +:+ aws.StringValue name)).
Proof using Type.
  split; [|split].
  - intros [rest ->]%resolveTags_head. split.
    + by intros [rest' [?|?]]%resolveSecurityGroups_head.
    + by intros [rest' ?]%resolveInstanceProfile_head.
  - intros [rest [-> | ->]]%resolveSecurityGroups_head;
      by intros [rest' ?]%resolveInstanceProfile_head.
  - done.
Qed.

(** ** The failures of parseAgentID *)

(** An identity fails to parse in two ways only, told apart by the
    error: the identity library refuses it, and the error carries the
    library's; or the library accepts it and its path is not the agent
    prefix followed by three segments.  The three captures are always
    there to be read. *)
Theorem parseAgentID_failure (spiffeID : string) (e : error) :
  parse spiffeID = Err e ↔
  (∃ err, ParseSpiffeID spiffeID AllowAnyTrustDomainAgent = Err err ∧
          e = errs_New "unable to parse agent id %q: %v"
                [ArgString spiffeID; ArgError err]) ∨
  (∃ u, ParseSpiffeID spiffeID AllowAnyTrustDomainAgent = Ok u ∧
        (∀ a r i, ¬ (url.Path u = "/spire/agent/aws_iid/" +:+ a +:+ "/" +:+ r +:+ "/" +:+ i ∧
                     segment a = true ∧ segment r = true ∧ segment i = true)) ∧
        e = errs_New "malformed agent id %q" [ArgString spiffeID]).
Proof using Type.
  unfold parseAgentID, FindStringSubmatch.
  destruct (ParseSpiffeID spiffeID AllowAnyTrustDomainAgent) as [u|err].
  2:{ split.
      - intros [= <-]. left. by exists err.
      - intros [(err' & [= <-] & ->)|(u & [=] & _)]. done. }
  destruct (match_items reAgentIDPath (url.Path u)) as [l|] eqn:Hm; simpl.
  - apply match_reAgentIDPath in Hm as (a & r & i & -> & Hshape). split; [done|].
    intros [(err & [=] & _)|(u' & [= <-] & Hno & _)]. by destruct (Hno a r i).
  - split.
    + intros [= <-]. right. exists u. split; [done|]. split; [|done].
      intros a r i Hshape.
      assert (match_items reAgentIDPath (url.Path u) = Some [a; r; i])
        by (apply match_reAgentIDPath; by exists a, r, i).
      congruence.
    + intros [(err & [=] & _)|(u' & [= <-] & _ & ->)]. done.
Qed.

(** ** The order in which the set is walked *)

(** Go walks [selectorSet] in an order of its own choosing; whatever
    the order, once sorted the keys are the same list, so the selectors
    returned do not depend on it. *)
Theorem makeSelectors_any_order (selectorSet : gset string) (keys : list string) :
  keys ≡ₚ elements selectorSet →
  {| common.Entries :=
       map (λ value, {| common.Type_ := pluginName; common.Value := value |})
         (sort_Strings keys) |}
  = makeSelectors selectorSet.
Proof using Type.
  intros Hperm. unfold makeSelectors. by rewrite (sort_Strings_any_order _ _ Hperm).
Qed.
End ResolveProofs.

(** * The theorems at work on the stand-ins *)

Example Resolve_worked_example :
  ∃ resp s',
    Demo.Resolve tt (Demo.batch [Demo.agent1]) (Demo.configured Demo.inventory)
    = (Ok resp, s') ∧
    noderesolver.Map resp !! Demo.agent1
    = Some {| common.Entries :=
                (λ value, {| common.Type_ := "aws_iid"; common.Value := value |})
                  <$> [ "iamrole:arn:aws:iam::123456789012:role/role1";
                        "sg:id:sg-1"; "sg:name:default"; "tag:Name:web1" ] |}.
Proof. eexists _, _. split; [reflexivity|]. vm_compute. reflexivity. Qed.

(** A region without instances: the identity gets an entry, and the
    entry is empty. *)
Lemma Resolve_no_instances_counterexample :
  Demo.parseAgentID Demo.agent1 = Ok ("123456789012", "us-east-1", "i-0abcd1234") ∧
  DescribeInstancesWithContext Demo.idle tt Demo.describe_agent1 tt
  = (Ok {| ec2.Reservations := [] |}, tt) ∧
  ∃ resp s',
    Demo.Resolve tt (Demo.batch [Demo.agent1]) (Demo.configured Demo.idle)
    = (Ok resp, s') ∧
    noderesolver.Map resp !! Demo.agent1 = Some {| common.Entries := [] |} ∧
    noderesolver.Map resp !! Demo.agent1 ≠ None.
Proof.
  split; [reflexivity|]. split; [reflexivity|].
  eexists _, _. split; [reflexivity|].
  split; [vm_compute; reflexivity|]. vm_compute. discriminate.
Qed.

Lemma Resolve_no_instances_empty_entry_witness :
  ∃ s3,
    Demo.Resolve tt (Demo.batch [Demo.agent1]) (Demo.configured Demo.idle)
    = (Ok {| noderesolver.Map := <[Demo.agent1 := {| common.Entries := [] |}]> ∅ |}, s3).
Proof.
  eexists.
  refine (proj1 (proj2
    (Resolve_no_instances_empty_entry Demo.ParseSpiffeID tt tt []
       Demo.agent1 "123456789012" "us-east-1" "i-0abcd1234"
       (Demo.configured Demo.idle) (Demo.configured Demo.idle)
       (snd (getRegionClient "us-east-1" (Demo.configured Demo.idle)))
       {| noderesolver.Map := ∅ |} Demo.idle {| ec2.Reservations := [] |} tt
       _ _ _ _ _))); reflexivity.
Defined.

Lemma Resolve_skips_malformed_witness :
  Demo.resolveSpiffeID tt "malformed" (Demo.configured Demo.inventory)
  = (Ok None,
     emit (EvWarnf "unrecognized Agent ID: %s: %v"
             [ ArgString "malformed";
               ArgError (errs_New "unable to parse agent id %q: %v"
                           [ArgString "malformed"; ArgError (External "invalid scheme")]) ])
       (Demo.configured Demo.inventory)).
Proof.
  refine (proj1 (proj1
    (Resolve_skips_malformed Demo.ParseSpiffeID tt tt ["malformed"; Demo.agent1]
       (Demo.configured Demo.inventory))
    "malformed" _ [Demo.agent1] _)).
  reflexivity.
Defined.

Example Resolve_malformed_then_valid :
  ∃ resp s',
    Demo.Resolve tt (Demo.batch ["malformed"; Demo.agent1]) (Demo.configured Demo.inventory)
    = (Ok resp, s') ∧
    noderesolver.Map resp !! "malformed" = None ∧
    is_Some (noderesolver.Map resp !! Demo.agent1).
Proof.
  eexists _, _. split; [reflexivity|].
  split; [vm_compute; reflexivity|]. vm_compute. by eexists.
Qed.

Lemma Resolve_remote_error_fatal_witness :
  fst (Demo.Resolve tt (Demo.batch ["malformed"; Demo.agent1])
         (Demo.configured Demo.throttled))
  = Err (iidError_Wrap (External "RequestLimitExceeded")).
Proof.
  destruct (Resolve_remote_error_fatal Demo.ParseSpiffeID tt tt
              (Demo.batch ["malformed"; Demo.agent1]) (Demo.configured Demo.throttled)
              (snd (Demo.Resolve tt (Demo.batch ["malformed"; Demo.agent1])
                      (Demo.configured Demo.throttled)))
              (fst (Demo.Resolve tt (Demo.batch ["malformed"; Demo.agent1])
                      (Demo.configured Demo.throttled)))
              eq_refl) as (evs & Htr & Hdescribe & _).
  apply (Hdescribe Demo.throttled Demo.describe_agent1).
  change (trace (snd (Demo.Resolve tt (Demo.batch ["malformed"; Demo.agent1])
                        (Demo.configured Demo.throttled))) = evs) in Htr.
  rewrite <-Htr. vm_compute.
  apply list_elem_of_further, list_elem_of_further, list_elem_of_here.
Defined.

Lemma Resolve_before_Configure_witness :
  ∃ s',
    Demo.Resolve tt (Demo.batch ["malformed"; Demo.agent1])
      (Demo.run_calls [CallConfigure tt {| spi.Configuration := "AKIA:" |}]
         (Demo.start Demo.idle))
    = (Err (iidError_New "not configured" []), s') ∧
    world s' = tt ∧
    ∃ evs, trace s' = [] ++ evs ∧
           Forall (λ ev, is_warning ev = true) evs ∧
           Forall (λ ev, is_remote_call ev = false) evs.
Proof.
  apply (Resolve_before_Configure Demo.ParseSpiffeID tt Demo.hcl_Decode
           (λ _, "") (λ _ w, (Ok Demo.idle, w)) tt []
           [CallConfigure tt {| spi.Configuration := "AKIA:" |}]
           tt (Demo.batch ["malformed"; Demo.agent1]) Demo.agent1).
  - reflexivity.
  - apply list_elem_of_further, list_elem_of_here.
  - reflexivity.
Defined.

Lemma getRegionClient_once_per_epoch_witness :
  let calls := [ CallResolve tt (Demo.batch [Demo.agent1]);
                 CallGetRegionClient "eu-west-1";
                 CallConfigure tt {| spi.Configuration := "AKIA:" |};
                 CallGetRegionClient "us-east-1" ] in
  let s1 := snd (getRegionClient "us-east-1" (Demo.configured Demo.idle)) in
  getRegionClient "us-east-1" (Demo.run_calls calls s1)
  = (Ok Demo.idle, Demo.run_calls calls s1).
Proof.
  intros calls s1.
  apply (proj1 (getRegionClient_once_per_epoch Demo.ParseSpiffeID tt Demo.hcl_Decode)
           "us-east-1" Demo.idle (Demo.configured Demo.idle) s1 calls).
  - reflexivity.
  - vm_compute. reflexivity.
Defined.

Example newClient_called_once :
  let calls := [ CallGetRegionClient "us-east-1";
                 CallResolve tt (Demo.batch [Demo.agent1]);
                 CallGetRegionClient "us-east-1" ] in
  length (List.filter (constructs "us-east-1")
            (trace (Demo.run_calls calls (Demo.configured Demo.idle)))) = 1.
Proof. vm_compute. reflexivity. Qed.

(** A construction that fails is not cached: the next call for the
    region tries again. *)
Example newClient_retried_after_failure :
  let calls := [ CallGetRegionClient "us-east-1"; CallGetRegionClient "us-east-1" ] in
  length (List.filter (invokes "us-east-1")
            (trace (Demo.run_calls calls Demo.without_session))) = 2 ∧
  length (List.filter (constructs "us-east-1")
            (trace (Demo.run_calls calls Demo.without_session))) = 0.
Proof. vm_compute. split; reflexivity. Qed.

(** One epoch, one region, a client factory that fails: the factory
    is called at each of the two calls. *)
Lemma getRegionClient_once_per_epoch_counterexample :
  trace Demo.without_session = [] ∧
  Demo.no_configure [CallGetRegionClient "us-east-1"; CallGetRegionClient "us-east-1"]
    Demo.without_session = true ∧
  trace (Demo.run_calls [CallGetRegionClient "us-east-1"; CallGetRegionClient "us-east-1"]
           Demo.without_session)
  = [ EvNewClient
        {| aws.Credentials := Some (credentials.NewStaticCredentials "AKIA" "secret" "");
           aws.Region := Some "us-east-1" |} (Err (External "no session"));
      EvNewClient
        {| aws.Credentials := Some (credentials.NewStaticCredentials "AKIA" "secret" "");
           aws.Region := Some "us-east-1" |} (Err (External "no session")) ] ∧
  length (List.filter (invokes "us-east-1")
            (trace (Demo.run_calls
                      [CallGetRegionClient "us-east-1"; CallGetRegionClient "us-east-1"]
                      Demo.without_session))) = 2.
Proof. repeat split; vm_compute; reflexivity. Qed.

(** A profile whose ARN is the empty string is looked up all the same,
    with that empty name; and a role whose ARN is the empty string
    gives the selector value "iamrole:". *)
Lemma resolveInstance_profile_lookup_counterexample :
  ec2.iamInstanceProfile Demo.profiled = Some {| ec2.Arn := Some "" |} ∧
  trace (snd (resolveInstance tt Demo.blank ∅ Demo.profiled (Demo.start Demo.blank)))
  = [ EvGetInstanceProfile Demo.blank {| iam.InstanceProfileName := Some "" |}
        (Ok Demo.blank_roles) ] ∧
  resolveInstanceProfile
    {| iam.Roles := [ {| iam.Arn := Some "" |}; {| iam.Arn := None |} ] |}
  = [ "iamrole:" ] ∧
  ∃ s', Demo.resolveSpiffeID tt Demo.agent1 (Demo.configured Demo.blank)
        = (Ok (Some {| common.Entries :=
                         [ {| common.Type_ := "aws_iid"; common.Value := "iamrole:" |} ] |}),
           s').
Proof.
  split; [reflexivity|]. split; [reflexivity|]. split; [reflexivity|].
  eexists. vm_compute. reflexivity.
Qed.

Lemma resolveInstance_profile_lookup_witness :
  resolveInstance tt Demo.inventory ∅ Demo.web1 (Demo.start Demo.inventory)
  = (Ok (addSelectors
           (addSelectors (addSelectors ∅ (resolveTags (ec2.Tags Demo.web1)))
              (resolveSecurityGroups (ec2.SecurityGroups Demo.web1)))
           (resolveInstanceProfile (iam.instanceProfile Demo.web1_roles))),
     emit (EvGetInstanceProfile Demo.inventory
             {| iam.InstanceProfileName :=
                  Some "arn:aws:iam::123456789012:instance-profile/role1" |}
             (Ok Demo.web1_roles))
       (set_world tt (Demo.start Demo.inventory))).
Proof.
  exact (proj1 (resolveInstance_profile_lookup tt Demo.inventory ∅ Demo.web1
                  (Demo.start Demo.inventory))
           {| ec2.Arn := Some "arn:aws:iam::123456789012:instance-profile/role1" |}
           "arn:aws:iam::123456789012:instance-profile/role1" eq_refl eq_refl).
Defined.

Lemma Resolve_profile_request_by_arn_witness :
  ∃ evs,
    trace (snd (Demo.Resolve tt (Demo.batch [Demo.agent1]) (Demo.configured Demo.inventory)))
    = [] ++ evs ∧
    omap profile_request evs
      `prefix_of` omap wanted_profile_request (flat_map described_instances evs) ∧
    (true = true →
     omap profile_request evs
     = omap wanted_profile_request (flat_map described_instances evs)).
Proof.
  apply (proj2 (Resolve_profile_request_by_arn Demo.ParseSpiffeID tt tt
                  (Demo.batch [Demo.agent1]) (Demo.configured Demo.inventory)
                  (snd (Demo.Resolve tt (Demo.batch [Demo.agent1])
                          (Demo.configured Demo.inventory)))
                  (fst (Demo.Resolve tt (Demo.batch [Demo.agent1])
                          (Demo.configured Demo.inventory))))).
  reflexivity.
Defined.

Example Resolve_profile_request_sent :
  omap profile_request
    (trace (snd (Demo.Resolve tt (Demo.batch [Demo.agent1])
                   (Demo.configured Demo.inventory))))
  = [ {| iam.InstanceProfileName :=
           Some "arn:aws:iam::123456789012:instance-profile/role1" |} ].
Proof. vm_compute. reflexivity. Qed.

(** * The further properties at work on the stand-ins *)

Lemma Configure_failure_witness :
  snd (Demo.Configure tt {| spi.Configuration := ":" |} (Demo.configured Demo.idle))
  = Demo.configured Demo.idle ∧
  is_iidError (iidError_New
                 "configuration missing both access key id and secret access key" [])
  = true.
Proof.
  apply (proj1 (proj2 (Configure_failure Demo.hcl_Decode tt
                         {| spi.Configuration := ":" |} (Demo.configured Demo.idle)))).
  reflexivity.
Defined.

Lemma Configure_explicit_credentials_witness :
  conf (plugin (snd (Demo.Configure tt {| spi.Configuration := "AKIA:secret" |}
                       {| plugin := NewIIDResolverPlugin (λ _, "from-env")
                                      (λ _ w, (Ok Demo.idle, w));
                          world := tt; trace := [] |})))
  = Some {| aws.Credentials := Some (credentials.NewStaticCredentials "AKIA" "secret" "");
            aws.Region := None |}.
Proof.
  unfold Demo.Configure.
  rewrite (Configure_explicit_credentials Demo.hcl_Decode tt
             {| spi.Configuration := "AKIA:secret" |}
             {| AccessKeyID := "AKIA"; SecretAccessKey := "secret" |}).
  - reflexivity.
  - reflexivity.
  - discriminate.
  - discriminate.
Defined.

Lemma Configure_forgets_witness :
  plugin (snd (Demo.Configure tt {| spi.Configuration := "AKIA:secret" |}
                 (snd (getRegionClient "us-east-1" (Demo.configured Demo.idle)))))
  = plugin (snd (Demo.Configure tt {| spi.Configuration := "AKIA:secret" |}
                   (Demo.start Demo.idle))).
Proof.
  apply (proj1 (proj2
    (Configure_forgets Demo.hcl_Decode tt {| spi.Configuration := "AKIA:secret" |}
       (snd (getRegionClient "us-east-1" (Demo.configured Demo.idle)))
       (Demo.start Demo.idle) eq_refl))).
  reflexivity.
Defined.

Lemma getRegionClient_failure_witness :
  let s := Demo.without_session in
  let s' := snd (getRegionClient "us-east-1" s) in
  (conf (plugin s) = None ∧
   External "no session" = iidError_New "not configured" [] ∧ s' = s) ∨
  (∃ c w, conf (plugin s) = Some c ∧
          newClient (hooks (plugin s))
            {| aws.Credentials := aws.Credentials c; aws.Region := Some "us-east-1" |} tt
          = (Err (External "no session"), w) ∧
          lookupClient (plugin s') "us-east-1" = None ∧
          clients (plugin s') = clients (plugin s)).
Proof.
  intros s s'.
  apply (getRegionClient_failure Demo.ParseSpiffeID tt Demo.hcl_Decode
           (λ _, "") (λ _ w, (Err (External "no session"), w)) tt []
           [CallConfigure tt {| spi.Configuration := "AKIA:secret" |}]
           "us-east-1" (External "no session") s').
  reflexivity.
Defined.

Lemma newClient_given_credentials_witness :
  let calls := [ CallResolve tt (Demo.batch [Demo.agent1]);
                 CallGetRegionClient "eu-west-1" ] in
  ∃ evs, trace (Demo.run_calls calls (Demo.configured Demo.idle)) = [] ++ evs ∧
    ∀ c r, EvNewClient c r ∈ evs →
           aws.Credentials c
           = Some (credentials.NewStaticCredentials "AKIA" "secret" "") ∧
           is_Some (aws.Region c).
Proof.
  intros calls.
  apply (newClient_given_credentials Demo.ParseSpiffeID tt Demo.hcl_Decode
           (Demo.configured Demo.idle)
           {| aws.Credentials := Some (credentials.NewStaticCredentials "AKIA" "secret" "");
              aws.Region := None |} calls).
  - reflexivity.
  - vm_compute. reflexivity.
Defined.

Lemma Resolve_factory_error_fatal_witness :
  fst (Demo.Resolve tt (Demo.batch ["malformed"; Demo.agent1]) Demo.without_session)
  = Err (External "no session").
Proof.
  destruct (Resolve_factory_error_fatal Demo.ParseSpiffeID tt tt
              (Demo.batch ["malformed"; Demo.agent1]) Demo.without_session
              (snd (Demo.Resolve tt (Demo.batch ["malformed"; Demo.agent1])
                      Demo.without_session))
              (fst (Demo.Resolve tt (Demo.batch ["malformed"; Demo.agent1])
                      Demo.without_session)))
    as (evs & Htr & Hfail).
  - intros _. vm_compute. by eexists.
  - reflexivity.
  - change (trace (snd (Demo.Resolve tt (Demo.batch ["malformed"; Demo.agent1])
                          Demo.without_session)) = evs) in Htr.
    apply (Hfail {| aws.Credentials :=
                      Some (credentials.NewStaticCredentials "AKIA" "secret" "");
                    aws.Region := Some "us-east-1" |}).
    rewrite <-Htr. vm_compute.
    apply list_elem_of_further, list_elem_of_here.
Defined.

Lemma Resolve_failure_reasons_witness :
  ∃ evs,
    trace (snd (Demo.Resolve tt (Demo.batch [Demo.agent1]) (Demo.configured Demo.throttled)))
    = [] ++ evs ∧
    (iidError_Wrap (External "RequestLimitExceeded") = iidError_New "not configured" [] ∨
     (∃ c w w', newClient (hooks (plugin (Demo.configured Demo.throttled))) c w
                = (Err (iidError_Wrap (External "RequestLimitExceeded")), w') ∧
                last evs = Some (EvNewClient c
                                   (Err (iidError_Wrap (External "RequestLimitExceeded"))))) ∨
     (∃ ev e', last evs = Some ev ∧ remote_failure ev = Some e' ∧
               iidError_Wrap (External "RequestLimitExceeded") = iidError_Wrap e')).
Proof.
  apply (Resolve_failure_reasons Demo.ParseSpiffeID tt tt (Demo.batch [Demo.agent1])
           (Demo.configured Demo.throttled)
           (snd (Demo.Resolve tt (Demo.batch [Demo.agent1]) (Demo.configured Demo.throttled)))
           (iidError_Wrap (External "RequestLimitExceeded"))).
  - intros _. vm_compute. by eexists.
  - reflexivity.
Defined.

Lemma Resolve_errors_of_class_witness :
  fst (Demo.Resolve tt (Demo.batch [Demo.agent1]) Demo.sdk_without_session)
  = Err (iidError_Wrap (External "no session")) ∧
  is_iidError (iidError_Wrap (External "no session")) = true.
Proof.
  split; [reflexivity|].
  apply (Resolve_errors_of_class Demo.ParseSpiffeID tt
           (Session := unit)
           (λ _ w, (Err (External "no session"), w))
           (λ _ _ _ w, (Demo.no_instances, w))
           (λ _ _ _ w, (Demo.no_profile, w))
           tt (Demo.batch [Demo.agent1]) Demo.sdk_without_session
           (snd (Demo.Resolve tt (Demo.batch [Demo.agent1]) Demo.sdk_without_session))).
  - reflexivity.
  - intros _. vm_compute. by eexists.
  - reflexivity.
Defined.

Lemma Resolve_keys_witness :
  ∃ resp s',
    Demo.Resolve tt (Demo.batch ["malformed"; Demo.agent1]) (Demo.configured Demo.inventory)
    = (Ok resp, s') ∧
    is_Some (noderesolver.Map resp !! Demo.agent1).
Proof.
  eexists _, _. split; [reflexivity|].
  apply (Resolve_keys Demo.ParseSpiffeID tt tt
           (Demo.batch ["malformed"; Demo.agent1]) (Demo.configured Demo.inventory)
           _ _ eq_refl Demo.agent1).
  split; [|reflexivity]. apply list_elem_of_further, list_elem_of_here.
Defined.

Lemma Resolve_entries_sorted_witness :
  ∃ resp s',
    Demo.Resolve tt (Demo.batch [Demo.agent1]) (Demo.configured Demo.inventory)
    = (Ok resp, s') ∧
    ∀ k sel, noderesolver.Map resp !! k = Some sel →
      StronglySorted (strict String.le) (common.Value <$> common.Entries sel).
Proof.
  eexists _, _. split; [reflexivity|]. intros k sel Hk.
  apply (Resolve_entries_sorted Demo.ParseSpiffeID tt tt
           (Demo.batch [Demo.agent1]) (Demo.configured Demo.inventory)
           _ _ eq_refl k sel Hk).
Defined.

Example Resolve_app_twice :
  fst (Demo.Resolve tt (Demo.batch ([Demo.agent2] ++ ["malformed"; Demo.agent1]))
         (Demo.configured Demo.inventory))
  = match Demo.Resolve tt (Demo.batch [Demo.agent2]) (Demo.configured Demo.inventory) with
    | (Ok resp1, s1) =>
        match Demo.Resolve tt (Demo.batch ["malformed"; Demo.agent1]) s1 with
        | (Ok resp2, _) =>
            Ok {| noderesolver.Map := noderesolver.Map resp2 ∪ noderesolver.Map resp1 |}
        | (Err e, _) => Err e
        end
    | (Err e, _) => Err e
    end.
Proof. unfold Demo.Resolve. rewrite Resolve_app. reflexivity. Qed.

Lemma Resolve_queries_witness :
  ∃ evs,
    trace (snd (Demo.Resolve tt (Demo.batch ["malformed"; Demo.agent1; Demo.agent2])
                  (Demo.configured Demo.inventory)))
    = [] ++ evs ∧
    omap describe_request evs
      `prefix_of` [Demo.describe_agent1; Demo.describe_agent1] ∧
    (true = true →
     omap describe_request evs = [Demo.describe_agent1; Demo.describe_agent1]).
Proof.
  apply (proj2 (Resolve_queries Demo.ParseSpiffeID tt tt
                  (Demo.batch ["malformed"; Demo.agent1; Demo.agent2])
                  (Demo.configured Demo.inventory)
                  (snd (Demo.Resolve tt (Demo.batch ["malformed"; Demo.agent1; Demo.agent2])
                          (Demo.configured Demo.inventory)))
                  (fst (Demo.Resolve tt (Demo.batch ["malformed"; Demo.agent1; Demo.agent2])
                          (Demo.configured Demo.inventory))))).
  reflexivity.
Defined.

Lemma resolveSpiffeID_ignores_account_witness :
  Demo.resolveSpiffeID tt Demo.agent1 (Demo.configured Demo.inventory)
  = Demo.resolveSpiffeID tt Demo.agent2 (Demo.configured Demo.inventory).
Proof.
  apply (resolveSpiffeID_ignores_account Demo.ParseSpiffeID tt tt
           Demo.agent1 Demo.agent2 "123456789012" "999999999999"
           "us-east-1" "i-0abcd1234"); reflexivity.
Defined.

Lemma Resolve_all_malformed_witness :
  ∃ s', Demo.Resolve tt (Demo.batch ["malformed"; "spiffe://example.org/spire/agent/aws_iid/a/b"])
          (Demo.start Demo.idle)
        = (Ok {| noderesolver.Map := ∅ |}, s') ∧
        plugin s' = plugin (Demo.start Demo.idle) ∧ world s' = tt ∧
        ∃ evs, trace s' = [] ++ evs ∧ length evs = 2 ∧
               Forall (λ ev, is_warning ev = true) evs.
Proof.
  apply (Resolve_all_malformed Demo.ParseSpiffeID tt tt
           (Demo.batch ["malformed"; "spiffe://example.org/spire/agent/aws_iid/a/b"])
           (Demo.start Demo.idle)).
  repeat constructor.
Defined.

Lemma resolveSpiffeID_values_witness :
  ∃ selectors s',
    Demo.resolveSpiffeID tt Demo.agent1 (Demo.configured Demo.inventory)
    = (Ok (Some selectors), s') ∧
    ∃ evs, trace s' = [] ++ evs ∧
      ∀ v, v ∈ common.Value <$> common.Entries selectors ↔
           (∃ inst, inst ∈ flat_map described_instances evs ∧
                    (v ∈ resolveTags (ec2.Tags inst) ∨
                     v ∈ resolveSecurityGroups (ec2.SecurityGroups inst))) ∨
           (∃ client input output,
              EvGetInstanceProfile client input (Ok output) ∈ evs ∧
              v ∈ resolveInstanceProfile (iam.instanceProfile output)).
Proof.
  eexists _, _. split; [reflexivity|].
  apply (resolveSpiffeID_values Demo.ParseSpiffeID tt tt Demo.agent1
           (Demo.configured Demo.inventory) _ _ eq_refl).
Defined.

Lemma resolveSpiffeID_without_profiles_witness :
  fst (Demo.resolveSpiffeID tt Demo.agent1 (Demo.configured Demo.plain))
  = Ok (Some (normalize [ "tag:Name:"; "sg:id:sg-1"; "sg:name:default";
                          "tag:Name:"; "sg:id:sg-1"; "sg:name:default" ])).
Proof.
  unfold Demo.resolveSpiffeID.
  rewrite (proj1 (resolveSpiffeID_without_profiles Demo.ParseSpiffeID tt tt
                    Demo.agent1 "123456789012" "us-east-1" "i-0abcd1234"
                    (Demo.configured Demo.plain)
                    (snd (getRegionClient "us-east-1" (Demo.configured Demo.plain)))
                    Demo.plain
                    {| ec2.Reservations :=
                         [ {| ec2.Instances := [Demo.bare] |};
                           {| ec2.Instances := [Demo.bare] |} ] |} tt
                    eq_refl eq_refl eq_refl
                    ltac:(repeat constructor))).
  reflexivity.
Defined.

Lemma selector_kinds_disjoint_witness :
  ("tag:Name:web1" ∉ resolveSecurityGroups (ec2.SecurityGroups Demo.web1)) ∧
  ("tag:Name:web1" ∉ resolveInstanceProfile (iam.instanceProfile Demo.web1_roles)).
Proof.
  apply (proj1 (selector_kinds_disjoint (ec2.Tags Demo.web1) (ec2.SecurityGroups Demo.web1)
                  (iam.instanceProfile Demo.web1_roles) "tag:Name:web1")).
  apply list_elem_of_here.
Defined.

Lemma parseAgentID_failure_witness :
  Demo.parseAgentID "malformed"
  = Err (errs_New "unable to parse agent id %q: %v"
           [ArgString "malformed"; ArgError (External "invalid scheme")]).
Proof.
  apply (proj2 (parseAgentID_failure Demo.ParseSpiffeID tt "malformed" _)).
  left. eexists. split; reflexivity.
Defined.

Example parseAgentID_two_segments :
  Demo.parseAgentID "spiffe://example.org/spire/agent/aws_iid/a/b"
  = Err (errs_New "malformed agent id %q"
           [ArgString "spiffe://example.org/spire/agent/aws_iid/a/b"]).
Proof. reflexivity. Qed.

Lemma makeSelectors_any_order_witness :
  {| common.Entries :=
       map (λ value, {| common.Type_ := pluginName; common.Value := value |})
         (sort_Strings ["tag:Name:web1"; "sg:id:sg-1"]) |}
  = makeSelectors (addSelectors ∅ ["sg:id:sg-1"; "tag:Name:web1"]).
Proof.
  apply (makeSelectors_any_order (addSelectors ∅ ["sg:id:sg-1"; "tag:Name:web1"])
           ["tag:Name:web1"; "sg:id:sg-1"]).
  apply NoDup_Permutation.
  - repeat constructor; rewrite ?elem_of_cons, ?elem_of_nil; intros H;
      repeat destruct H as [H|H]; discriminate H || exact H.
  - apply NoDup_elements.
  - intros v. rewrite elem_of_elements, elem_of_addSelectors, elem_of_empty,
      !elem_of_cons, !elem_of_nil. split; intros H; repeat destruct H as [H|H]; auto;
      contradiction.
Defined.
